(** * ROMLoad: a shallow embedding of Supermodel's ROM loader

    The development follows [ROMLoad.cpp]: the mirroring helper
    [CopyRegion], the catalog lookups [FindROMByCRCInGame] and
    [FindROMByCRC], [ByteSwap], the single-image loader [LoadROM] and the
    entry point [LoadROMSetFromZIPFile].

    Conventions.
    - [unsigned] and [UINT32] are 32-bit: values are [Z] in [0, 2^32) and
      every arithmetic result is reduced by [u32].
    - A byte buffer is a total map from index to byte; staying inside the
      allocation is the caller's business, as in C.
    - The sentinel-terminated arrays ([ROM], [GameList], [Map]) are lists
      of the entries that precede the sentinel.
    - A pointer into [GameList] is the index of the entry it points to, so
      that pointer comparison is index comparison.
    - Loops whose exit depends on wrapped arithmetic take a [fuel] bound and
      answer [None] when it runs out.
    - The unzip library is external: an archive is the list of entries the
      iteration visits, each carrying what the library calls answer for it.
    - Diagnostics are collected in a log, oldest first. *)

From Stdlib Require Import ZArith List Lia Bool String.
From Stdlib Require Import Strings.Byte.
Import ListNotations.
Local Open Scope Z_scope.

(** ** Machine integers and buffers *)

Definition wordsize : Z := 2 ^ 32.

Definition u32 (z : Z) : Z := z mod wordsize.

Definition Buffer : Type := Z -> byte.

(** [buf[i] = v] *)
Definition bset (b : Buffer) (i : Z) (v : byte) : Buffer :=
  fun a => if a =? i then v else b a.

(** [memcpy(&dest[off], src, n)] with [src] outside [dest] *)
Definition memcpy (dest : Buffer) (off : Z) (src : Buffer) (n : Z) : Buffer :=
  fun a => if (off <=? a) && (a <? off + n) then src (a - off) else dest a.

(** The bytes of a list laid out from index 0, at most [cap] of them. *)
Definition blit (b : Buffer) (l : list byte) (cap : Z) : Buffer :=
  fun a =>
    if (0 <=? a) && (a <? cap) then
      match nth_error l (Z.to_nat a) with
      | Some v => v
      | None => b a
      end
    else b a.

Definition zeros : Buffer := fun _ => x00.

(** ** CopyRegion *)

Fixpoint CopyRegion (fuel : nat) (dest : Buffer) (destOffset destSize : Z)
         (src : Buffer) (srcSize : Z) : option Buffer :=
  match fuel with
  | O => None
  | S fuel' =>
      if destOffset <? destSize then
        let srcSize' :=
          if u32 (destOffset + srcSize) >=? destSize
          then u32 (destSize - destOffset)
          else srcSize in
        CopyRegion fuel' (memcpy dest destOffset src srcSize')
                   (u32 (destOffset + srcSize')) destSize src srcSize'
      else Some dest
  end.

(** ** ByteSwap *)

Fixpoint ByteSwap_loop (fuel : nat) (buf : Buffer) (i size : Z)
  : option Buffer :=
  match fuel with
  | O => None
  | S fuel' =>
      if i <? size then
        let x := buf (u32 (i + 0)) in
        let buf1 := bset buf (u32 (i + 0)) (buf (u32 (i + 1))) in
        let buf2 := bset buf1 (u32 (i + 1)) x in
        ByteSwap_loop fuel' buf2 (u32 (i + 2)) size
      else Some buf
  end.

Definition ByteSwap (fuel : nat) (buf : Buffer) (size : Z) : option Buffer :=
  ByteSwap_loop fuel buf 0 size.

(** ** The catalog *)

(** Modelled from the spec: [struct ROMInfo] is declared in a header
    outside this file (the spec's ImageDescriptor); the fields are the
    ones this file reads, the numeric ones unsigned 32-bit values. *)
Record ROMInfo : Type := mkROM {
  region    : string;
  file      : string;
  crc       : Z;
  fileSize  : Z;
  byteSwap  : bool;
  offset    : Z;
  stride    : Z;
  groupSize : Z
}.

(** Modelled from the spec: [struct GameInfo] is declared in a header
    outside this file (the spec's TitleDescriptor); [ROM] holds the images
    up to the sentinel whose [region] is null. *)
Record GameInfo : Type := mkGame {
  id    : string;
  title : string;
  ROM   : list ROMInfo
}.

(** A [const struct GameInfo *] that points into the catalog. *)
Abbreviation GamePtr := nat (only parsing).

Fixpoint FindROMByCRCInGame_from (j : nat) (roms : list ROMInfo) (c : Z)
  : option nat :=
  match roms with
  | [] => None
  | r :: rest =>
      if c =? crc r then Some j
      else FindROMByCRCInGame_from (S j) rest c
  end.

(** The game pointer handed back is the one passed in, so only the image
    index is returned. *)
Definition FindROMByCRCInGame (Game : GameInfo) (c : Z) : option nat :=
  FindROMByCRCInGame_from 0 (ROM Game) c.

Fixpoint FindROMByCRC_list (i : nat) (games : list GameInfo) (c : Z)
  : option (GamePtr * nat) :=
  match games with
  | [] => None
  | G :: rest =>
      match FindROMByCRCInGame G c with
      | Some j => Some (i, j)
      | None => FindROMByCRC_list (S i) rest c
      end
  end.

(** [TryGame] is either null or a pointer obtained from an earlier call,
    hence into [GameList]; an index outside the list stands for no such
    pointer and is passed over. *)
Definition FindROMByCRC (GameList : list GameInfo) (TryGame : option GamePtr)
           (c : Z) : option (GamePtr * nat) :=
  let tried :=
    match TryGame with
    | Some t =>
        match nth_error GameList t with
        | Some G =>
            match FindROMByCRCInGame G c with
            | Some j => Some (t, j)
            | None => None
            end
        | None => None
        end
    | None => None
    end in
  match tried with
  | Some r => Some r
  | None => FindROMByCRC_list 0 GameList c
  end.

(** ** Destination regions *)

(** A region pointer names a caller-owned buffer; two bindings holding the
    same pointer alias the same buffer. *)
Abbreviation Ptr := nat (only parsing).

Definition Mem : Type := Ptr -> Buffer.

Definition mset (m : Mem) (p : Ptr) (b : Buffer) : Mem :=
  fun q => if Nat.eqb q p then b else m q.

(** Modelled from the spec: [struct ROMMap] is declared in a header
    outside this file (the spec's RegionBinding). *)
Record ROMMap : Type := mkMap {
  mregion : string;
  ptr     : Ptr
}.

(** First binding whose name compares equal ([strcmp] returns 0). *)
Fixpoint find_region (Map : list ROMMap) (name : string) : option Ptr :=
  match Map with
  | [] => None
  | m :: rest =>
      if String.eqb (mregion m) name then Some (ptr m)
      else find_region rest name
  end.

(** ** Diagnostics *)

Inductive Diag : Type :=
| ErrOpen                                  (* Unable to open %s. *)
| ErrContents                              (* Unable to read the contents *)
| DbgIdentified (g : GamePtr)              (* ROM set identified *)
| DbgAlsoContains (g : GamePtr)            (* %s also contains *)
| ErrMultipleGames (g : GamePtr)           (* Multiple games were found *)
| ErrNoSupportedGames                      (* contains no supported games *)
| ErrMissing (f : string) (c : Z)          (* %s (CRC=%08X) is missing *)
| ErrMemory (n : Z)                        (* Insufficient memory *)
| ErrFileName                              (* Unable to extract a file name *)
| ErrWrongSize (n : Z)                     (* is not the correct size *)
| ErrRead                                  (* Unable to read %s from %s. *)
| ErrCRC                                   (* CRC error reading *)
| ErrNoMapping (r : string)                (* No mapping for "%s". *)
| ErrFailedLoad (f : string) (c : Z).      (* Failed to load %s *)

(** Modelled from the spec: [BOOL] with its two results [OKAY] and [FAIL]
    comes from a header outside this file. *)
Inductive BOOL : Type := OKAY | FAIL.

(** Modelled from the spec: [ErrorLog] is declared in [Supermodel.h] and
    defined outside this file; every fatal path here returns its result,
    so it records the diagnostic and answers [FAIL]. *)
Definition ErrorLog (log : list Diag) (d : Diag) : BOOL * list Diag :=
  (FAIL, log ++ [d]).

(** Modelled from the spec: [DebugLog] is defined outside this file; it
    records its message. *)
Definition DebugLog (log : list Diag) (d : Diag) : list Diag := log ++ [d].

(** ** The archive, as the unzip library presents it *)

(** Modelled from the spec: the archive reader is an external library;
    an entry carries its metadata and the answers of the calls made while
    it is the current file. *)
Record ZipEntry : Type := mkEntry {
  ze_info   : bool;       (* unzGetCurrentFileInfo, no name asked: UNZ_OK *)
  ze_crc    : Z;          (* fileInfo.crc *)
  ze_size   : Z;          (* fileInfo.uncompressed_size *)
  ze_name   : bool;       (* unzGetCurrentFileInfo with a name: UNZ_OK *)
  ze_open   : bool;       (* unzOpenCurrentFile: UNZ_OK *)
  ze_data   : list byte;  (* what unzReadCurrentFile leaves in the buffer *)
  ze_read   : Z;          (* what unzReadCurrentFile returns *)
  ze_crcerr : bool        (* unzCloseCurrentFile: UNZ_CRCERROR *)
}.

(** Modelled from the spec: the archive as the reader's open and
    iteration calls present it. *)
Record ZipFile : Type := mkZip {
  zf_open    : bool;            (* unzOpen gave a handle *)
  zf_first   : bool;            (* first unzGoToFirstFile: UNZ_OK *)
  zf_again   : bool;            (* second unzGoToFirstFile: UNZ_OK *)
  zf_entries : list ZipEntry    (* visited until UNZ_END_OF_LIST_OF_FILE *)
}.

(** ** Placement: the mapping loop of LoadROM *)

(** [for (j = 0; j < groupSize; j++) ptr[destIdx+j] = buf[srcIdx++];]
    with [n] iterations left; [j] only counts up to [groupSize]. *)
Fixpoint place_group (n : nat) (j : Z) (dst buf : Buffer) (destIdx srcIdx : Z)
  : Buffer * Z :=
  match n with
  | O => (dst, srcIdx)
  | S n' =>
      place_group n' (j + 1)
                  (bset dst (u32 (destIdx + j)) (buf srcIdx))
                  buf destIdx (u32 (srcIdx + 1))
  end.

Fixpoint place_loop (fuel : nat) (R : ROMInfo) (dst buf : Buffer)
         (destIdx srcIdx : Z) : option Buffer :=
  match fuel with
  | O => None
  | S fuel' =>
      if srcIdx <? fileSize R then
        let '(dst', srcIdx') :=
          place_group (Z.to_nat (groupSize R)) 0 dst buf destIdx srcIdx in
        place_loop fuel' R dst' buf (u32 (destIdx + stride R)) srcIdx'
      else Some dst
  end.

Definition place (fuel : nat) (R : ROMInfo) (dst buf : Buffer)
  : option Buffer :=
  place_loop fuel R dst buf (offset R) 0.

(** ** LoadROM *)

Record RomResult : Type := mkRomResult {
  rr_ok  : BOOL;
  rr_buf : Buffer;
  rr_mem : Mem;
  rr_log : list Diag
}.

Definition LoadROM (fuel : nat) (buf : Buffer) (bufSize : Z)
           (Map : list ROMMap) (R : ROMInfo) (e : ZipEntry) (loadAll : bool)
           (mem : Mem) (log : list Diag) : option RomResult :=
  if negb (ze_name e) then
    let '(r, log1) := ErrorLog log ErrFileName in
    Some (mkRomResult r buf mem log1)
  else if negb (ze_size e =? fileSize R) then
    let '(r, log1) := ErrorLog log (ErrWrongSize (fileSize R)) in
    Some (mkRomResult r buf mem log1)
  else if negb (ze_open e) then
    let '(r, log1) := ErrorLog log ErrRead in
    Some (mkRomResult r buf mem log1)
  else
    let buf1 := blit buf (ze_data e) bufSize in
    if negb (u32 (ze_read e) =? fileSize R) then
      let '(r, log1) := ErrorLog log ErrRead in
      Some (mkRomResult r buf1 mem log1)
    else
      let log1 := if ze_crcerr e then snd (ErrorLog log ErrCRC) else log in
      match (if byteSwap R then ByteSwap fuel buf1 (fileSize R)
             else Some buf1) with
      | None => None
      | Some buf2 =>
          match find_region Map (region R) with
          | Some p =>
              match place fuel R (mem p) buf2 with
              | None => None
              | Some dst => Some (mkRomResult OKAY buf2 (mset mem p dst) log1)
              end
          | None =>
              if loadAll then
                let '(r, log2) := ErrorLog log1 (ErrNoMapping (region R)) in
                Some (mkRomResult r buf2 mem log2)
              else Some (mkRomResult OKAY buf2 mem log1)
          end
      end.

(** ** LoadROMSetFromZIPFile *)

Definition game_roms (GameList : list GameInfo) (g : GamePtr) : list ROMInfo :=
  match nth_error GameList g with
  | Some G => ROM G
  | None => []
  end.

Definition mark (found : nat -> bool) (i : nat) : nat -> bool :=
  fun k => if Nat.eqb k i then true else found k.

Definition none_found : nat -> bool := fun _ => false.

(** *** First pass: identification and presence *)

Record ScanState : Type := mkScan {
  sGame  : option GamePtr;   (* Game *)
  sFound : nat -> bool;      (* romsFound *)
  sMulti : bool;             (* multipleGameError *)
  sLog   : list Diag
}.

Definition scan_init (log : list Diag) : ScanState :=
  mkScan None none_found false log.

Definition scan_step (GameList : list GameInfo) (st : ScanState)
           (e : ZipEntry) : ScanState :=
  if negb (ze_info e) then st
  else
    match FindROMByCRC GameList (sGame st) (u32 (ze_crc e)) with
    | None => st
    | Some (CurGame, romIdx) =>
        let st1 :=
          match sGame st with
          | None =>
              mkScan (Some CurGame) (sFound st) (sMulti st)
                     (DebugLog (sLog st) (DbgIdentified CurGame))
          | Some Game =>
              if negb (Nat.eqb CurGame Game) then
                let log1 := DebugLog (sLog st) (DbgAlsoContains CurGame) in
                if negb (sMulti st) then
                  mkScan (sGame st) (sFound st) true
                         (snd (ErrorLog log1 (ErrMultipleGames Game)))
                else mkScan (sGame st) (sFound st) (sMulti st) log1
              else st
          end in
        match sGame st1 with
        | Some Game =>
            if Nat.eqb Game CurGame then
              mkScan (sGame st1) (mark (sFound st1) romIdx) (sMulti st1)
                     (sLog st1)
            else st1
        | None => st1
        end
    end.

Fixpoint scan (GameList : list GameInfo) (entries : list ZipEntry)
         (st : ScanState) : ScanState :=
  match entries with
  | [] => st
  | e :: rest => scan GameList rest (scan_step GameList st e)
  end.

(** [for (i = 0; i < numROMs; i++) if (romsFound[i] == 0) err |= ErrorLog(..)]
    from position [i] on; answers the accumulated [err] and the log. *)
Fixpoint report_missing (i : nat) (roms : list ROMInfo) (found : nat -> bool)
         (err : BOOL) (log : list Diag) : BOOL * list Diag :=
  match roms with
  | [] => (err, log)
  | r :: rest =>
      if found i then report_missing (S i) rest found err log
      else
        let '(e1, log1) := ErrorLog log (ErrMissing (file r) (crc r)) in
        report_missing (S i) rest found
                       (match err with OKAY => e1 | FAIL => FAIL end) log1
  end.

(** Largest [fileSize] among the identified game's images. *)
Fixpoint max_size (roms : list ROMInfo) (maxSize : Z) : Z :=
  match roms with
  | [] => maxSize
  | r :: rest =>
      max_size rest (if fileSize r >? maxSize then fileSize r else maxSize)
  end.

(** *** Second pass: extraction and placement *)

Record LoadState : Type := mkLoad {
  lFound : nat -> bool;      (* romsFound, reset before this pass *)
  lBuf   : Buffer;           (* buf *)
  lMem   : Mem;
  lLog   : list Diag
}.

(** One round of the second loop.  [&Game->ROM[romIdx]] always exists,
    [romIdx] having just been found in that very list. *)
Definition load_step (fuel : nat) (Map : list ROMMap)
           (GameList : list GameInfo) (Game : GamePtr) (maxSize : Z)
           (loadAll : bool) (st : LoadState) (e : ZipEntry)
  : option LoadState :=
  if negb (ze_info e) then Some st
  else
    match FindROMByCRC GameList (Some Game) (u32 (ze_crc e)) with
    | None => Some st
    | Some (CurGame, romIdx) =>
        if Nat.eqb CurGame Game then
          match nth_error (game_roms GameList Game) romIdx with
          | None => Some st
          | Some R =>
              match LoadROM fuel (lBuf st) maxSize Map R e loadAll
                            (lMem st) (lLog st) with
              | None => None
              | Some rr =>
                  Some (mkLoad (match rr_ok rr with
                                | OKAY => mark (lFound st) romIdx
                                | FAIL => lFound st
                                end)
                               (rr_buf rr) (rr_mem rr) (rr_log rr))
              end
          end
        else Some st
    end.

Fixpoint load_entries (fuel : nat) (Map : list ROMMap)
         (GameList : list GameInfo) (Game : GamePtr) (maxSize : Z)
         (loadAll : bool) (entries : list ZipEntry) (st : LoadState)
  : option LoadState :=
  match entries with
  | [] => Some st
  | e :: rest =>
      match load_step fuel Map GameList Game maxSize loadAll st e with
      | None => None
      | Some st' =>
          load_entries fuel Map GameList Game maxSize loadAll rest st'
      end
  end.

(** [for (i = 0; i < numROMs; i++) if (romsFound[i]) ++n; else ErrorLog(..)]
    from position [i] on. *)
Fixpoint count_loaded (i : nat) (roms : list ROMInfo) (found : nat -> bool)
         (n : nat) (log : list Diag) : nat * list Diag :=
  match roms with
  | [] => (n, log)
  | r :: rest =>
      if found i then count_loaded (S i) rest found (S n) log
      else
        count_loaded (S i) rest found n
                     (snd (ErrorLog log (ErrFailedLoad (file r) (crc r))))
  end.

(** *** The entry point *)

Record Result : Type := mkResult {
  rGame : option GamePtr;   (* returned pointer, [None] for NULL *)
  rMem  : Mem;              (* the caller's region buffers afterwards *)
  rLog  : list Diag         (* diagnostics, oldest first *)
}.

(** [alloc] is what [new(std::nothrow) UINT8[maxSize]] hands back: [None]
    for a null pointer, otherwise the buffer with its initial contents. *)
Definition LoadROMSetFromZIPFile (fuel : nat) (Map : list ROMMap)
           (GameList : list GameInfo) (zf : ZipFile) (loadAll : bool)
           (alloc : option Buffer) (mem : Mem) : option Result :=
  if negb (zf_open zf) then
    Some (mkResult None mem (snd (ErrorLog [] ErrOpen)))
  else if negb (zf_first zf) then
    Some (mkResult None mem (snd (ErrorLog [] ErrContents)))
  else
    let sc := scan GameList (zf_entries zf) (scan_init []) in
    match sGame sc with
    | None =>
        Some (mkResult None mem (snd (ErrorLog (sLog sc) ErrNoSupportedGames)))
    | Some Game =>
        let roms := game_roms GameList Game in
        let numROMs := List.length roms in
        let '(err, log1) := report_missing 0 roms (sFound sc) OKAY (sLog sc) in
        match err with
        | FAIL => Some (mkResult None mem log1)
        | OKAY =>
            let maxSize := max_size roms 0 in
            match alloc with
            | None =>
                Some (mkResult None mem
                               (snd (ErrorLog log1 (ErrMemory maxSize))))
            | Some buf =>
                if negb (zf_again zf) then
                  Some (mkResult None mem (snd (ErrorLog log1 ErrContents)))
                else
                  match load_entries fuel Map GameList Game maxSize loadAll
                                     (zf_entries zf)
                                     (mkLoad none_found buf mem log1) with
                  | None => None
                  | Some ld =>
                      if loadAll then
                        let '(n, log2) :=
                          count_loaded 0 roms (lFound ld) O (lLog ld) in
                        if Nat.ltb n numROMs
                        then Some (mkResult None (lMem ld) log2)
                        else Some (mkResult (Some Game) (lMem ld) log2)
                      else Some (mkResult (Some Game) (lMem ld) (lLog ld))
                  end
            end
        end
    end.

(** * Vocabulary of the statements *)

(** ** Buffers *)

Definition is_u32 (z : Z) : Prop := 0 <= z < wordsize.

(** A source whose first byte differs from all the others. *)
Definition marked_src : Buffer := fun a => if a =? 0 then x01 else x00.

Definition ones : Buffer := fun _ => xff.

(** The buffer with the bytes of every pair [(2m, 2m+1)] inside [[lo, hi)]
    exchanged. *)
Definition pairs_swapped (buf : Buffer) (lo hi : Z) : Buffer :=
  fun a =>
    if (lo <=? a) && (a <? hi) then
      if Z.even a then buf (a + 1) else buf (a - 1)
    else buf a.

(** Upper end of the last pair [ByteSwap] touches for a given [size]. *)
Definition swap_end (size : Z) : Z := size + size mod 2.

(** Bytes [srcIdx ..] of the source spread over every other byte from
    the image's offset. *)
Definition spread (R : ROMInfo) (buf dst : Buffer) (srcIdx : Z) : Buffer :=
  fun a =>
    let t := a - offset R in
    if (2 * srcIdx <=? t) && (t <? 2 * fileSize R) && Z.even t
    then buf (t / 2) else dst a.

(** Groups [q0 ..] below [n] of the source laid out by the image's
    [groupSize] and [stride] from its offset. *)
Definition interleaved (R : ROMInfo) (q0 n : Z) (buf dst : Buffer) : Buffer :=
  fun a =>
    let t := a - offset R in
    if (q0 <=? t / stride R) && (t / stride R <? n)
       && (t mod stride R <? groupSize R)
    then buf (t / stride R * groupSize R + t mod stride R) else dst a.

(** An image laid out in [n] groups without wrap-around: groups are not
    empty and do not overlap, the file ends in group [n - 1], and every
    source and destination index is an unsigned value. *)
Definition layout_ok (R : ROMInfo) (n : Z) : Prop :=
  0 < groupSize R /\ groupSize R <= stride R /\
  (n - 1) * groupSize R < fileSize R /\ fileSize R <= n * groupSize R /\
  0 <= n /\ n * groupSize R < wordsize /\ 0 <= offset R /\
  (0 < n -> offset R + (n - 1) * stride R + groupSize R <= wordsize).

(** An image whose loops run to their exit within [fuel] rounds: groups
    are not empty and the source index never wraps. *)
Definition placeable (fuel : nat) (R : ROMInfo) : Prop :=
  0 < groupSize R /\ 0 <= fileSize R /\
  fileSize R + groupSize R < wordsize /\
  fileSize R < Z.of_nat fuel.

(** ** Single images *)




(** The entry extracts without error, at the length the catalog expects,
    into a region that is bound. *)
Definition loads_ok (Map : list ROMMap) (R : ROMInfo) (e : ZipEntry) : Prop :=
  ze_name e = true /\ ze_size e = fileSize R /\ ze_open e = true /\
  u32 (ze_read e) = fileSize R /\
  exists p, find_region Map (region R) = Some p.

(** ** Archives against the catalog *)

(** Title and checksum of the first readable entry some catalog title
    owns, in archive order. *)
Fixpoint first_match (GameList : list GameInfo) (entries : list ZipEntry)
  : option (GamePtr * Z) :=
  match entries with
  | [] => None
  | e :: rest =>
      if ze_info e then
        match FindROMByCRC GameList None (u32 (ze_crc e)) with
        | Some (g, _) => Some (g, u32 (ze_crc e))
        | None => first_match GameList rest
        end
      else first_match GameList rest
  end.

(** The entry is image [idx] of title [g]. *)
Definition hits (GameList : list GameInfo) (g : GamePtr) (idx : nat)
           (e : ZipEntry) : bool :=
  ze_info e &&
  match FindROMByCRC GameList (Some g) (u32 (ze_crc e)) with
  | Some (g', j) => Nat.eqb g' g && Nat.eqb j idx
  | None => false
  end.

(** The entry is some image of title [g]. *)
Definition owned (GameList : list GameInfo) (g : GamePtr) (e : ZipEntry)
  : bool :=
  ze_info e &&
  match FindROMByCRC GameList (Some g) (u32 (ze_crc e)) with
  | Some (g', _) => Nat.eqb g' g
  | None => false
  end.

(** The entry is an image of another title and not of [g]. *)
Definition foreign (GameList : list GameInfo) (g : GamePtr) (e : ZipEntry)
  : bool :=
  ze_info e &&
  match FindROMByCRC GameList (Some g) (u32 (ze_crc e)) with
  | Some (g', _) => negb (Nat.eqb g' g)
  | None => false
  end.

(** Some entry of the archive is image [idx] of title [g]. *)
Definition present (GameList : list GameInfo) (g : GamePtr)
           (entries : list ZipEntry) (idx : nat) : bool :=
  existsb (hits GameList g idx) entries.

(** Some entry of the archive is foreign to title [g]. *)
Definition contaminated (GameList : list GameInfo) (g : GamePtr)
           (entries : list ZipEntry) : bool :=
  existsb (foreign GameList g) entries.



(** The entry is readable and some catalog title owns its checksum. *)
Definition known (GameList : list GameInfo) (e : ZipEntry) : bool :=
  ze_info e &&
  match FindROMByCRC GameList None (u32 (ze_crc e)) with
  | Some _ => true
  | None => false
  end.

(** The archive without the entries no catalog title owns. *)
Definition drop_unknown (GameList : list GameInfo) (zf : ZipFile) : ZipFile :=
  mkZip (zf_open zf) (zf_first zf) (zf_again zf)
        (filter (known GameList) (zf_entries zf)).

(** The images from position [i] on whose presence flag is clear. *)
Fixpoint absent_from (i : nat) (roms : list ROMInfo) (found : nat -> bool)
  : list ROMInfo :=
  match roms with
  | [] => []
  | r :: rest =>
      if found i then absent_from (S i) rest found
      else r :: absent_from (S i) rest found
  end.

(** ** Diagnostics *)

Definition missing_diag (R : ROMInfo) : Diag := ErrMissing (file R) (crc R).

Definition is_missing (d : Diag) : bool :=
  match d with
  | ErrMissing _ _ => true
  | _ => false
  end.

(** Number of multiple-games warnings in a log. *)
Fixpoint count_multi (log : list Diag) : nat :=
  match log with
  | [] => 0
  | ErrMultipleGames _ :: rest => S (count_multi rest)
  | _ :: rest => count_multi rest
  end.

(** ** Sample images, a small catalog and some archives *)

Definition rom_contiguous : ROMInfo :=
  mkROM "crom" "epr.17" 1 4 false 2 4 4.

Definition rom_wrap_contiguous : ROMInfo :=
  mkROM "crom" "epr.18" 3 2 false 4294967295 2 2.

Definition rom_interleaved : ROMInfo :=
  mkROM "vrom" "mpr.26" 2 3 false 1 2 1.

Definition rom_wrap_interleaved : ROMInfo :=
  mkROM "vrom" "mpr.27" 4 2 false 4294967295 2 1.

Definition rom_words : ROMInfo :=
  mkROM "crom" "epr.20" 5 6 false 8 4 2.

Definition rom_ragged : ROMInfo :=
  mkROM "crom" "epr.21" 6 5 false 8 4 2.

Definition rom_empty_group : ROMInfo :=
  mkROM "crom" "epr.22" 7 4 false 0 4 0.

Definition rom_even : ROMInfo := mkROM "vrom" "mpr.30" 8 3 false 4 2 1.
Definition rom_odd : ROMInfo := mkROM "vrom" "mpr.31" 9 3 false 5 2 1.

Definition romA0 : ROMInfo := mkROM "crom" "a0.bin" 100 4 false 0 4 2.
Definition romA1 : ROMInfo := mkROM "crom" "a1.bin" 101 4 true 2 4 2.
Definition romB0 : ROMInfo := mkROM "vrom" "b0.bin" 200 2 false 0 2 2.

Definition gameA : GameInfo := mkGame "gamea" "Game A" [romA0; romA1].
Definition gameB : GameInfo := mkGame "gameb" "Game B" [romB0].

Definition catalog : list GameInfo := [gameA; gameB].

Definition bindings : list ROMMap := [mkMap "crom" 0; mkMap "vrom" 1].

Definition blank : Mem := fun _ => zeros.

Definition fileA0 : ZipEntry :=
  mkEntry true 100 4 true true [x01; x02; x03; x04] 4 false.
Definition fileA1 : ZipEntry :=
  mkEntry true 101 4 true true [x05; x06; x07; x08] 4 false.
Definition fileA1_short : ZipEntry :=
  mkEntry true 101 3 true true [x05; x06; x07] 3 false.
Definition fileB0 : ZipEntry :=
  mkEntry true 200 2 true true [x0a; x0b] 2 false.

Definition fileX : ZipEntry :=
  mkEntry true 999 7 true true [x01] 1 false.
Definition file_unreadable : ZipEntry :=
  mkEntry false 100 4 true true [x01; x02; x03; x04] 4 false.

Definition zip_noisy : ZipFile :=
  mkZip true true true [fileX; fileA0; file_unreadable; fileA1].

Definition zip_complete : ZipFile := mkZip true true true [fileA0; fileA1].
Definition zip_partial : ZipFile := mkZip true true true [fileA0; fileB0].
Definition zip_short : ZipFile := mkZip true true true [fileA0; fileA1_short].
Definition zip_retry : ZipFile :=
  mkZip true true true [fileA0; fileA1_short; fileA1].

(** A title whose first image has an empty group, and an archive with
    that image and a short copy of the second. *)
Definition romS0 : ROMInfo := mkROM "crom" "s0.bin" 300 4 false 0 4 0.
Definition romS1 : ROMInfo := mkROM "crom" "s1.bin" 301 4 false 4 4 2.
Definition gameS : GameInfo := mkGame "games" "Game S" [romS0; romS1].
Definition catalog_stuck : list GameInfo := [gameS].
Definition fileS0 : ZipEntry :=
  mkEntry true 300 4 true true [x01; x02; x03; x04] 4 false.
Definition fileS1_short : ZipEntry :=
  mkEntry true 301 3 true true [x05; x06; x07] 3 false.
Definition zip_stuck : ZipFile :=
  mkZip true true true [fileS0; fileS1_short].


Definition run_complete : option Result :=
  LoadROMSetFromZIPFile 5 bindings catalog zip_complete true (Some zeros) blank.

(** * Properties *)

(** ** Arithmetic of [u32] *)

Lemma wordsize_val : wordsize = 4294967296.
Proof. reflexivity. Qed.

Lemma u32_small (z : Z) : 0 <= z < wordsize -> u32 z = z.
Proof. intros H. unfold u32. apply Z.mod_small. exact H. Qed.

Lemma u32_range (z : Z) : 0 <= u32 z < wordsize.
Proof. unfold u32. apply Z.mod_pos_bound. rewrite wordsize_val. lia. Qed.

Lemma bset_eq (b : Buffer) (i : Z) (v : byte) : bset b i v i = v.
Proof. unfold bset. rewrite Z.eqb_refl. reflexivity. Qed.

Lemma bset_neq (b : Buffer) (i a : Z) (v : byte) : a <> i -> bset b i v a = b a.
Proof.
  intros H. unfold bset. destruct (a =? i) eqn:E; [|reflexivity].
  apply Z.eqb_eq in E. contradiction.
Qed.

Lemma memcpy_in (dest src : Buffer) (off n a : Z) :
  off <= a < off + n -> memcpy dest off src n a = src (a - off).
Proof.
  intros H. unfold memcpy.
  replace (off <=? a) with true by (symmetry; apply Z.leb_le; lia).
  replace (a <? off + n) with true by (symmetry; apply Z.ltb_lt; lia).
  reflexivity.
Qed.

Lemma memcpy_out (dest src : Buffer) (off n a : Z) :
  a < off \/ off + n <= a -> memcpy dest off src n a = dest a.
Proof.
  intros H. unfold memcpy.
  destruct (off <=? a) eqn:E1; [|reflexivity].
  destruct (a <? off + n) eqn:E2; [|reflexivity].
  apply Z.leb_le in E1. apply Z.ltb_lt in E2. lia.
Qed.

(** ** CopyRegion *)

Section CopyRegionFacts.

Variables (src : Buffer) (N k : Z).
Hypothesis k_pos : 0 < k.
Hypothesis no_wrap : N + k <= wordsize.

(** One tile, or the trimmed last one, starting at a multiple of [k]. *)
Lemma tile_mod (off i : Z) :
  0 <= off -> off mod k = 0 -> off <= i < off + k -> i mod k = i - off.
Proof.
  intros Hoff Hm Hi.
  assert (E : off = k * (off / k)) by
    (pose proof (Z.div_mod off k ltac:(lia)); lia).
  replace i with ((i - off) + (off / k) * k) at 1 by lia.
  rewrite Z.mod_add by lia. apply Z.mod_small. lia.
Qed.

Lemma CopyRegion_tiles (fuel : nat) :
  forall (dest : Buffer) (off : Z),
    0 <= off < N -> off mod k = 0 -> N - off < Z.of_nat fuel ->
    exists d, CopyRegion fuel dest off N src k = Some d /\
              (forall i, off <= i < N -> d i = src (i mod k)) /\
              (forall i, i < off \/ N <= i -> d i = dest i).
Proof.
  induction fuel as [|fuel IH]; intros dest off Hoff Hm Hfuel; [lia|].
  cbn [CopyRegion].
  replace (off <? N) with true by (symmetry; apply Z.ltb_lt; lia).
  rewrite (u32_small (off + k)) by lia.
  destruct (off + k >=? N) eqn:Etrim.
  - (* last, trimmed tile *)
    apply Z.geb_le in Etrim.
    rewrite (u32_small (N - off)) by lia.
    replace (off + (N - off)) with N by lia.
    rewrite (u32_small N) by lia.
    destruct fuel as [|fuel]; [lia|].
    cbn [CopyRegion]. rewrite Z.ltb_irrefl.
    eexists. split; [reflexivity|]. split.
    + intros i Hi. rewrite memcpy_in by lia.
      rewrite (tile_mod off i) by lia. reflexivity.
    + intros i Hi. apply memcpy_out. lia.
  - (* a whole tile, then the rest *)
    assert (Hlt : off + k < N).
    { destruct (Z.geb_spec (off + k) N); [discriminate|lia]. }
    rewrite (u32_small (off + k)) by lia.
    destruct (IH (memcpy dest off src k) (off + k)) as (d & Hd & Hin & Hout).
    + lia.
    + rewrite <- Zplus_mod_idemp_l, Hm. cbn. apply Z.mod_same. lia.
    + lia.
    + exists d. split; [exact Hd|]. split.
      * intros i Hi. destruct (Z.lt_ge_cases i (off + k)) as [Hl|Hg].
        -- rewrite Hout by lia. rewrite memcpy_in by lia.
           rewrite (tile_mod off i) by lia. reflexivity.
        -- apply Hin. lia.
      * intros i Hi. rewrite Hout by lia. apply memcpy_out. lia.
Qed.

End CopyRegionFacts.

(** Without wrap-around in [destOffset+srcSize] a positive [srcSize]
    always drives the loop to its exit. *)
Lemma CopyRegion_terminates (src : Buffer) (destSize srcSize : Z) (fuel : nat) :
  0 < srcSize -> destSize + srcSize <= wordsize ->
  forall (dest : Buffer) (destOffset : Z),
    0 <= destOffset -> Z.max 0 (destSize - destOffset) < Z.of_nat fuel ->
    exists d, CopyRegion fuel dest destOffset destSize src srcSize = Some d.
Proof.
  intros Hs Hw. induction fuel as [|fuel IH]; intros dest off Hoff Hfuel.
  - lia.
  - cbn [CopyRegion]. destruct (off <? destSize) eqn:E.
    + apply Z.ltb_lt in E. rewrite (u32_small (off + srcSize)) by lia.
      destruct (off + srcSize >=? destSize) eqn:Etrim.
      * apply Z.geb_le in Etrim.
        rewrite (u32_small (destSize - off)) by lia.
        replace (off + (destSize - off)) with destSize by lia.
        rewrite (u32_small destSize) by lia.
        destruct fuel as [|fuel]; [lia|].
        cbn [CopyRegion]. rewrite Z.ltb_irrefl. eexists. reflexivity.
      * assert (Hlt : off + srcSize < destSize).
        { destruct (Z.geb_spec (off + srcSize) destSize); [discriminate|lia]. }
        rewrite (u32_small (off + srcSize)) by lia.
        apply IH; lia.
    + eexists. reflexivity.
Qed.

(** With [srcSize = 0] an entered loop never advances. *)
Lemma CopyRegion_zero_diverges (src : Buffer) (destSize destOffset : Z) :
  0 <= destOffset < wordsize -> destOffset < destSize ->
  forall (fuel : nat) (dest : Buffer),
    CopyRegion fuel dest destOffset destSize src 0 = None.
Proof.
  intros Hoff Hlt. induction fuel as [|fuel IH]; intros dest; [reflexivity|].
  cbn [CopyRegion].
  replace (destOffset <? destSize) with true by (symmetry; apply Z.ltb_lt; lia).
  rewrite Z.add_0_r, (u32_small destOffset) by lia.
  replace (destOffset >=? destSize) with false
    by (symmetry; destruct (Z.geb_spec destOffset destSize); [lia|reflexivity]).
  rewrite Z.add_0_r, (u32_small destOffset) by lia.
  apply IH.
Qed.

(** C3, at a size where [destOffset+srcSize] wraps: with
    [N = 2^32 - 2] and [k = 2863311530] the second copy is not trimmed and
    the third starts at [2k - 2^32], which is no multiple of [k]; the
    byte there ends up as [src[0]], not [src[i mod k]]. *)
Theorem CopyRegion_wrap_breaks_tiling :
  exists d,
    CopyRegion 4 zeros 0 4294967294 marked_src 2863311530 = Some d /\
    0 < 2863311530 <= 4294967294 /\
    0 <= 1431655764 < 4294967294 /\
    d 1431655764 = x01 /\
    marked_src (1431655764 mod 2863311530) = x00.
Proof.
  eexists. split; [reflexivity|].
  repeat split; try lia; vm_compute; reflexivity.
Qed.

(** C9, at a size where [destOffset+srcSize] wraps: with
    [destSize = 2^32 - 1] and [srcSize = 2^31 > 0] the offset alternates
    between [0] and [2^31] and the loop never exits. *)
Theorem CopyRegion_wrap_diverges :
  forall (fuel : nat) (dest src : Buffer),
    CopyRegion fuel dest 0 4294967295 src 2147483648 = None.
Proof.
  intros fuel dest src.
  assert (H : forall (f : nat) (d : Buffer),
             CopyRegion f d 0 4294967295 src 2147483648 = None /\
             CopyRegion f d 2147483648 4294967295 src 2147483648 = None).
  { induction f as [|f IH]; intros d; [split; reflexivity|].
    split.
    - change (CopyRegion (S f) d 0 4294967295 src 2147483648)
        with (CopyRegion f (memcpy d 0 src 2147483648)
                         2147483648 4294967295 src 2147483648).
      apply IH.
    - change (CopyRegion (S f) d 2147483648 4294967295 src 2147483648)
        with (CopyRegion f (memcpy d 2147483648 src 2147483648)
                         0 4294967295 src 2147483648).
      apply IH. }
  apply H.
Qed.

(** ** ByteSwap *)

Lemma even_cases (a : Z) :
  (Z.even a = true /\ exists m, a = 2 * m) \/
  (Z.even a = false /\ exists m, a = 2 * m + 1).
Proof.
  destruct (Z.even a) eqn:E.
  - left. split; [reflexivity|]. apply Z.even_spec. exact E.
  - right. split; [reflexivity|]. apply Z.odd_spec.
    rewrite <- Z.negb_even, E. reflexivity.
Qed.

Ltac parity a :=
  let m := fresh "m" in
  let E := fresh "E" in
  destruct (even_cases a) as [[E [m ->]]|[E [m ->]]]; try rewrite E in *.

Ltac range_bool :=
  repeat match goal with
    | |- context [?x <=? ?y] => destruct (Z.leb_spec x y)
    | |- context [?x <? ?y] => destruct (Z.ltb_spec x y)
    | |- context [?x =? ?y] => destruct (Z.eqb_spec x y)
    end; cbn [andb].

Section ByteSwapFacts.

Variable size : Z.

Lemma ByteSwap_loop_spec (fuel : nat) :
  size <= wordsize - 2 ->
  forall (buf d : Buffer) (i : Z),
    Z.even i = true -> 0 <= i ->
    ByteSwap_loop fuel buf i size = Some d ->
    forall a, d a = pairs_swapped buf i (swap_end size) a.
Proof.
  intros Hsize. induction fuel as [|fuel IH]; intros buf d i Ei Hi Hrun a;
    [discriminate|].
  cbn [ByteSwap_loop] in Hrun.
  assert (Hend : size <= (swap_end size) <= size + 1).
  { unfold swap_end. pose proof (Z.mod_pos_bound size 2). lia. }
  assert (Hendeven : exists q, (swap_end size) = 2 * q).
  { unfold swap_end. exists ((size + size mod 2) / 2).
    pose proof (Z.div_mod size 2 ltac:(lia)).
    pose proof (Z.mod_pos_bound size 2 ltac:(lia)).
    assert (size mod 2 = 0 \/ size mod 2 = 1) as [H2|H2] by lia;
      rewrite H2 in *.
    - replace (size + 0) with (size / 2 * 2) by lia.
      rewrite Z.div_mul; lia.
    - replace (size + 1) with ((size / 2 + 1) * 2) by lia.
      rewrite Z.div_mul; lia. }
  destruct Hendeven as [q Hq].
  destruct (i <? size) eqn:Elt.
  - apply Z.ltb_lt in Elt.
    rewrite Z.add_0_r in Hrun.
    rewrite (u32_small i), (u32_small (i + 1)), (u32_small (i + 2)) in Hrun
      by lia.
    assert (Ei2 : Z.even (i + 2) = true).
    { replace (i + 2) with (i + 2 * 1) by lia. rewrite Z.even_add_mul_2.
      exact Ei. }
    rewrite (IH _ _ _ Ei2 ltac:(lia) Hrun a).
    unfold pairs_swapped, bset.
    apply Z.even_spec in Ei. destruct Ei as [mi ->].
    parity a; range_bool; try reflexivity; try lia; f_equal; lia.
  - apply Z.ltb_ge in Elt. injection Hrun as <-.
    unfold pairs_swapped.
    apply Z.even_spec in Ei. destruct Ei as [mi ->].
    range_bool; try reflexivity; lia.
Qed.

Lemma ByteSwap_loop_returns (fuel : nat) :
  size <= wordsize - 2 ->
  forall (buf : Buffer) (i : Z),
    0 <= i -> Z.max 0 (size - i) < Z.of_nat fuel ->
    exists d, ByteSwap_loop fuel buf i size = Some d.
Proof.
  intros Hsize. induction fuel as [|fuel IH]; intros buf i Hi Hfuel; [lia|].
  cbn [ByteSwap_loop]. destruct (i <? size) eqn:Elt.
  - apply Z.ltb_lt in Elt. rewrite (u32_small (i + 2)) by lia.
    apply IH; lia.
  - eexists. reflexivity.
Qed.

(** Beyond [2^32 - 2] the even counter can never reach [size]. *)
Lemma ByteSwap_loop_diverges (fuel : nat) :
  wordsize - 2 < size ->
  forall (buf : Buffer) (i : Z),
    Z.even i = true -> 0 <= i < wordsize ->
    ByteSwap_loop fuel buf i size = None.
Proof.
  intros Hsize. induction fuel as [|fuel IH]; intros buf i Ei Hi;
    [reflexivity|].
  cbn [ByteSwap_loop].
  apply Z.even_spec in Ei. destruct Ei as [m ->].
  rewrite wordsize_val in *.
  replace (2 * m <? size) with true by (symmetry; apply Z.ltb_lt; lia).
  apply IH.
  - unfold u32. rewrite wordsize_val.
    destruct (Z.eq_dec (2 * m + 2) 4294967296) as [E|E].
    + rewrite E. reflexivity.
    + rewrite Z.mod_small by lia.
      replace (2 * m + 2) with (0 + 2 * (m + 1)) by lia.
      rewrite Z.even_add_mul_2. reflexivity.
  - pose proof (u32_range (2 * m + 2)) as Hr.
    rewrite wordsize_val in Hr. exact Hr.
Qed.

Lemma pairs_swapped_twice (buf b1 b2 : Buffer) :
  (forall a, b1 a = pairs_swapped buf 0 (swap_end size) a) ->
  (forall a, b2 a = pairs_swapped b1 0 (swap_end size) a) ->
  forall a, b2 a = buf a.
Proof.
  intros H1 H2 a. rewrite H2. unfold pairs_swapped.
  assert (Hq : exists q, (swap_end size) = 2 * q).
  { unfold swap_end. pose proof (Z.div_mod size 2 ltac:(lia)).
    pose proof (Z.mod_pos_bound size 2 ltac:(lia)).
    assert (size mod 2 = 0 \/ size mod 2 = 1) as [E|E] by lia;
      rewrite E in *.
    - exists (size / 2). lia.
    - exists (size / 2 + 1). lia. }
  destruct Hq as [q Hq].
  destruct ((0 <=? a) && (a <? (swap_end size))) eqn:Ein.
  - apply andb_prop in Ein. destruct Ein as [E1 E2].
    apply Z.leb_le in E1. apply Z.ltb_lt in E2.
    parity a; rewrite H1; unfold pairs_swapped.
    + replace (Z.even (2 * m + 1)) with false
        by (symmetry; rewrite Z.add_comm, Z.even_add_mul_2; reflexivity).
      range_bool; try lia; f_equal; lia.
    + replace (2 * m + 1 - 1) with (0 + 2 * m) by lia.
      rewrite Z.even_add_mul_2. cbn [Z.even].
      range_bool; try lia; f_equal; lia.
  - rewrite H1. unfold pairs_swapped. rewrite Ein. reflexivity.
Qed.

End ByteSwapFacts.

(** C8 as stated fails at the largest size.  With [size = 2^32 - 1] the
    even 32-bit counter steps from [2^32 - 2] back to [0] and is never
    at least [size]: the first call of [ByteSwap] returns for no amount
    of fuel, so the buffer is never handed back, let alone restored by a
    second call. *)
Lemma ByteSwap_never_returns_at_max :
  ~ exists (fuel : nat) (b : Buffer),
      ByteSwap fuel marked_src 4294967295 = Some b.
Proof.
  intros (fuel & b & H). unfold ByteSwap in H.
  rewrite (ByteSwap_loop_diverges 4294967295 fuel) in H;
    [discriminate|rewrite wordsize_val; lia|reflexivity|
     rewrite wordsize_val; lia].
Qed.

(** C8, amended: for every buffer and every size up to [2^32 - 2],
    applying [ByteSwap] twice with the same size returns the buffer to
    its original contents: both calls return once the fuel exceeds
    [size], and the second result equals the original buffer at every
    index.  (For any size at all, two calls that do return restore the
    buffer; beyond [2^32 - 2] none does.) *)
Theorem ByteSwap_involution (buf : Buffer) (size : Z) :
  (forall (f1 f2 : nat) (b1 b2 : Buffer),
      ByteSwap f1 buf size = Some b1 -> ByteSwap f2 b1 size = Some b2 ->
      forall a, b2 a = buf a) /\
  (size <= wordsize - 2 ->
   forall fuel : nat, Z.max 0 size < Z.of_nat fuel ->
     exists b1 b2,
       ByteSwap fuel buf size = Some b1 /\ ByteSwap fuel b1 size = Some b2 /\
       forall a, b2 a = buf a).
Proof.
  assert (Hpart : forall (f1 f2 : nat) (b1 b2 : Buffer),
             ByteSwap f1 buf size = Some b1 -> ByteSwap f2 b1 size = Some b2 ->
             forall a, b2 a = buf a).
  { intros f1 f2 b1 b2 H1 H2.
    destruct (Z.le_gt_cases size (wordsize - 2)) as [Hs|Hs].
    - apply (pairs_swapped_twice size buf b1 b2).
      + apply (ByteSwap_loop_spec size f1 Hs buf b1 0);
          [reflexivity|lia|exact H1].
      + apply (ByteSwap_loop_spec size f2 Hs b1 b2 0);
          [reflexivity|lia|exact H2].
    - unfold ByteSwap in H1.
      rewrite (ByteSwap_loop_diverges size f1) in H1;
        [discriminate|lia|reflexivity|rewrite wordsize_val; lia]. }
  split; [exact Hpart|].
  intros Hs fuel Hfuel.
  destruct (ByteSwap_loop_returns size fuel Hs buf 0 ltac:(lia) ltac:(lia))
    as [b1 H1].
  destruct (ByteSwap_loop_returns size fuel Hs b1 0 ltac:(lia) ltac:(lia))
    as [b2 H2].
  exists b1, b2. split; [exact H1|]. split; [exact H2|].
  exact (Hpart fuel fuel b1 b2 H1 H2).
Qed.

Lemma ByteSwap_involution_witness :
  exists b1 b2,
    ByteSwap 4 marked_src 3 = Some b1 /\ ByteSwap 4 b1 3 = Some b2 /\
    forall a, b2 a = marked_src a.
Proof.
  apply (proj2 (ByteSwap_involution marked_src 3)).
  - rewrite wordsize_val. lia.
  - lia.
Defined.

(** ** Placement *)

(** One group: [n] source bytes from [srcIdx] land at [destIdx+j] onwards. *)
Lemma place_group_spec (buf : Buffer) (destIdx : Z) (n : nat) :
  forall (j : Z) (dst : Buffer) (srcIdx : Z),
    0 <= destIdx + j -> destIdx + j + Z.of_nat n <= wordsize ->
    0 <= srcIdx -> srcIdx + Z.of_nat n < wordsize ->
    snd (place_group n j dst buf destIdx srcIdx) = srcIdx + Z.of_nat n /\
    forall a,
      fst (place_group n j dst buf destIdx srcIdx) a =
      if (destIdx + j <=? a) && (a <? destIdx + j + Z.of_nat n)
      then buf (srcIdx + (a - (destIdx + j)))
      else dst a.
Proof.
  induction n as [|n IH]; intros j dst srcIdx Hd Hde Hs Hse.
  - cbn [place_group fst snd]. split; [lia|].
    intros a. range_bool; try reflexivity; lia.
  - cbn [place_group].
    rewrite (u32_small (destIdx + j)), (u32_small (srcIdx + 1)) by lia.
    destruct (IH (j + 1) (bset dst (destIdx + j) (buf srcIdx)) (srcIdx + 1))
      as [Hsnd Hfst]; try lia.
    split; [lia|].
    intros a. rewrite Hfst. unfold bset.
    range_bool; try reflexivity; try lia; f_equal; lia.
Qed.

(** C6 as stated fails when [offset + length] passes [2^32]: the index
    [destIdx+j] is an [unsigned] sum, so the second byte of a two-byte
    image at offset [2^32 - 1] lands at index 0, where a contiguous copy
    leaves the destination alone, and index [2^32] stays unwritten. *)
Lemma place_contiguous_wraps :
  groupSize rom_wrap_contiguous = fileSize rom_wrap_contiguous /\
  stride rom_wrap_contiguous = fileSize rom_wrap_contiguous /\
  exists d,
    place 2 rom_wrap_contiguous zeros ones = Some d /\
    d 0 = xff /\ memcpy zeros 4294967295 ones 2 0 = x00 /\
    d 4294967296 = x00 /\ memcpy zeros 4294967295 ones 2 4294967296 = xff.
Proof.
  split; [reflexivity|]. split; [reflexivity|].
  eexists. split; [reflexivity|]. repeat split; vm_compute; reflexivity.
Qed.

(** C6, amended: when [groupSize], [stride] and the source length
    coincide and [offset + length <= 2^32], so that every destination
    index is an unsigned index, the placement loop writes exactly what a
    single contiguous copy of the source at [offset] writes. *)
Theorem place_contiguous (R : ROMInfo) (dst buf : Buffer) (fuel : nat) :
  groupSize R = fileSize R -> stride R = fileSize R ->
  is_u32 (offset R) -> is_u32 (fileSize R) ->
  offset R + fileSize R <= wordsize ->
  (2 <= fuel)%nat ->
  exists d, place fuel R dst buf = Some d /\
            forall a, d a = memcpy dst (offset R) buf (fileSize R) a.
Proof.
  intros Hg Hst [Ho1 Ho2] [Hf1 Hf2] Hrange Hfuel.
  destruct fuel as [|[|fuel]]; try lia.
  unfold place. cbn [place_loop].
  destruct (0 <? fileSize R) eqn:Epos.
  - apply Z.ltb_lt in Epos. rewrite Hg.
    destruct (place_group_spec buf (offset R) (Z.to_nat (fileSize R)) 0 dst 0)
      as [Hsnd Hfst]; try (rewrite ?Z2Nat.id; lia).
    destruct (place_group (Z.to_nat (fileSize R)) 0 dst buf (offset R) 0)
      as [dst' srcIdx'] eqn:Eg.
    cbn [fst snd] in Hsnd, Hfst. rewrite Z2Nat.id in Hsnd, Hfst by lia.
    subst srcIdx'. cbn [Z.add]. rewrite Z.ltb_irrefl.
    exists dst'. split; [reflexivity|].
    intros a. rewrite Hfst. unfold memcpy.
    rewrite !Z.add_0_r. range_bool; try reflexivity; f_equal; lia.
  - apply Z.ltb_ge in Epos. exists dst. split; [reflexivity|].
    intros a. symmetry. apply memcpy_out. lia.
Qed.

Lemma place_contiguous_witness :
  exists d, place 2 rom_contiguous zeros marked_src = Some d /\
            forall a, d a = memcpy zeros 2 marked_src 4 a.
Proof.
  apply (place_contiguous rom_contiguous zeros marked_src 2);
    try reflexivity; unfold is_u32; cbn; rewrite ?wordsize_val; lia.
Defined.

Section Interleave2.

Variables (R : ROMInfo) (buf : Buffer).
Hypothesis group1 : groupSize R = 1.
Hypothesis stride2 : stride R = 2.
Hypothesis off_lo : 0 <= offset R.
Hypothesis last_ok : offset R + 2 * (fileSize R - 1) < wordsize.

Lemma place_loop_spread (fuel : nat) :
  forall (dst : Buffer) (destIdx srcIdx : Z),
    0 <= srcIdx <= fileSize R ->
    (srcIdx < fileSize R -> destIdx = offset R + 2 * srcIdx) ->
    fileSize R - srcIdx < Z.of_nat fuel ->
    exists d, place_loop fuel R dst buf destIdx srcIdx = Some d /\
              forall a, d a = spread R buf dst srcIdx a.
Proof.
  induction fuel as [|fuel IH]; intros dst destIdx srcIdx Hs Hd Hfuel; [lia|].
  cbn [place_loop]. destruct (srcIdx <? fileSize R) eqn:Elt.
  - apply Z.ltb_lt in Elt. rewrite group1.
    change (Z.to_nat 1) with 1%nat. cbn [place_group].
    rewrite (Hd Elt). rewrite Z.add_0_r.
    assert (Hw : fileSize R < wordsize) by (rewrite wordsize_val in *; lia).
    rewrite (u32_small (offset R + 2 * srcIdx)),
            (u32_small (srcIdx + 1)) by lia.
    destruct (IH (bset dst (offset R + 2 * srcIdx) (buf srcIdx))
                 (u32 (offset R + 2 * srcIdx + stride R)) (srcIdx + 1))
      as (d & Hrun & Hspec); try lia.
    + intros Hnext. rewrite stride2. rewrite u32_small by lia. lia.
    + exists d. split; [exact Hrun|].
      intros a. rewrite Hspec. unfold spread, bset.
      destruct (even_cases (a - offset R)) as [[E [m Hm]]|[E [m Hm]]];
        rewrite E, ?andb_false_r, ?andb_true_r.
      * assert (Hdiv : (a - offset R) / 2 = m)
          by (rewrite Hm, Z.mul_comm; apply Z.div_mul; lia).
        rewrite Hdiv.
        range_bool; try reflexivity; try lia; f_equal; lia.
      * range_bool; try reflexivity; lia.
  - apply Z.ltb_ge in Elt. exists dst. split; [reflexivity|].
    intros a. unfold spread. range_bool; try reflexivity; lia.
Qed.

End Interleave2.

(** C7 as stated fails when [offset + 2*i] passes [2^32]: with offset
    [2^32 - 1] the second source byte lands at index 1, which lies
    outside [[offset, offset + 2*L)], and index [offset + 2] is not
    written. *)
Lemma place_interleave2_wraps :
  groupSize rom_wrap_interleaved = 1 /\
  stride rom_wrap_interleaved = 2 /\
  fileSize rom_wrap_interleaved = 2 /\
  exists d,
    place 3 rom_wrap_interleaved zeros ones = Some d /\
    1 < offset rom_wrap_interleaved /\
    d 1 = xff /\ zeros 1 = x00 /\
    d (offset rom_wrap_interleaved + 2 * 1) = x00 /\ ones 1 = xff.
Proof.
  split; [reflexivity|]. split; [reflexivity|]. split; [reflexivity|].
  eexists. split; [reflexivity|]. repeat split; vm_compute; reflexivity.
Qed.

(** C7, amended: with [groupSize = 1] and [stride = 2], and the last
    written index [offset + 2*(L-1)] below [2^32], source byte [i] lands
    at destination index [offset + 2*i] for every [i] below the source
    length [L]; bytes at odd distance from [offset] and bytes outside
    [[offset, offset + 2*L)] keep their value. *)
Theorem place_interleave2 (R : ROMInfo) (dst buf : Buffer) (fuel : nat) :
  groupSize R = 1 -> stride R = 2 ->
  0 <= offset R -> 0 <= fileSize R ->
  offset R + 2 * (fileSize R - 1) < wordsize ->
  fileSize R < Z.of_nat fuel ->
  exists d, place fuel R dst buf = Some d /\
    (forall i, 0 <= i < fileSize R -> d (offset R + 2 * i) = buf i) /\
    (forall a, Z.odd (a - offset R) = true -> d a = dst a) /\
    (forall a, a < offset R \/ offset R + 2 * fileSize R <= a -> d a = dst a).
Proof.
  intros Hg Hst Ho Hl Hlast Hfuel.
  destruct (place_loop_spread R buf Hg Hst Ho Hlast fuel dst (offset R) 0)
    as (d & Hrun & Hspec); try lia.
  exists d. split; [exact Hrun|]. split; [|split].
  - intros i Hi. rewrite Hspec. unfold spread.
    replace (offset R + 2 * i - offset R) with (0 + 2 * i) by lia.
    rewrite Z.even_add_mul_2. cbn [Z.even Z.add].
    replace (2 * i / 2) with i
      by (symmetry; rewrite Z.mul_comm; apply Z.div_mul; lia).
    range_bool; try reflexivity; lia.
  - intros a Hodd. rewrite Hspec. unfold spread.
    rewrite <- Z.negb_odd, Hodd. cbn [negb]. rewrite andb_false_r. reflexivity.
  - intros a Ha. rewrite Hspec. unfold spread.
    range_bool; try reflexivity; lia.
Qed.

Lemma place_interleave2_witness :
  exists d, place 4 rom_interleaved zeros marked_src = Some d /\
    (forall i, 0 <= i < 3 -> d (1 + 2 * i) = marked_src i) /\
    (forall a, Z.odd (a - 1) = true -> d a = zeros a) /\
    (forall a, a < 1 \/ 1 + 2 * 3 <= a -> d a = zeros a).
Proof.
  apply (place_interleave2 rom_interleaved zeros marked_src 4);
    try reflexivity; cbn; rewrite ?wordsize_val; lia.
Defined.

(** ** Catalog lookup *)

Lemma FindROMByCRCInGame_from_sound (roms : list ROMInfo) (c : Z) :
  forall (j i : nat),
    FindROMByCRCInGame_from j roms c = Some i ->
    (j <= i)%nat /\
    exists R, nth_error roms (i - j) = Some R /\ crc R = c.
Proof.
  induction roms as [|r rest IH]; intros j i H; [discriminate|].
  cbn [FindROMByCRCInGame_from] in H.
  destruct (c =? crc r) eqn:E.
  - injection H as <-. apply Z.eqb_eq in E. split; [lia|].
    exists r. rewrite Nat.sub_diag. split; [reflexivity|congruence].
  - apply IH in H. destruct H as [Hle (R & HR & Hc)]. split; [lia|].
    exists R. split; [|exact Hc].
    replace (i - j)%nat with (S (i - S j)) by lia. exact HR.
Qed.

Lemma FindROMByCRCInGame_sound (G : GameInfo) (c : Z) (i : nat) :
  FindROMByCRCInGame G c = Some i ->
  exists R, nth_error (ROM G) i = Some R /\ crc R = c.
Proof.
  intros H. apply FindROMByCRCInGame_from_sound in H.
  destruct H as [_ H]. rewrite Nat.sub_0_r in H. exact H.
Qed.

Lemma FindROMByCRC_list_sound (c : Z) (games : list GameInfo) :
  forall (i g j : nat),
    FindROMByCRC_list i games c = Some (g, j) ->
    (i <= g)%nat /\
    exists G, nth_error games (g - i) = Some G /\
              FindROMByCRCInGame G c = Some j.
Proof.
  induction games as [|G0 rest IH]; intros i g j H; [discriminate|].
  cbn [FindROMByCRC_list] in H.
  destruct (FindROMByCRCInGame G0 c) as [j0|] eqn:E.
  - injection H as <- <-. split; [lia|]. exists G0.
    rewrite Nat.sub_diag. split; [reflexivity|exact E].
  - apply IH in H. destruct H as [Hle (G & HG & Hj)]. split; [lia|].
    exists G. split; [|exact Hj].
    replace (g - i)%nat with (S (g - S i)) by lia. exact HG.
Qed.

Lemma FindROMByCRC_list_none (c : Z) (games : list GameInfo) :
  forall (i k : nat) (G : GameInfo),
    FindROMByCRC_list i games c = None ->
    nth_error games k = Some G -> FindROMByCRCInGame G c = None.
Proof.
  induction games as [|G0 rest IH]; intros i k G H Hk.
  - destruct k; discriminate.
  - cbn [FindROMByCRC_list] in H.
    destruct (FindROMByCRCInGame G0 c) eqn:E; [discriminate|].
    destruct k as [|k]; cbn [nth_error] in Hk.
    + injection Hk as <-. exact E.
    + exact (IH (S i) k G H Hk).
Qed.

Section Lookup.

Variable GameList : list GameInfo.

(** Whatever the bias, a hit names a catalog entry owning the checksum. *)
Lemma FindROMByCRC_sound (t : option GamePtr) (c : Z) (g j : nat) :
  FindROMByCRC GameList t c = Some (g, j) ->
  exists G, nth_error GameList g = Some G /\
            FindROMByCRCInGame G c = Some j.
Proof.
  unfold FindROMByCRC. intros H.
  assert (Hlist : FindROMByCRC_list 0 GameList c = Some (g, j) ->
                  exists G, nth_error GameList g = Some G /\
                            FindROMByCRCInGame G c = Some j).
  { intros Hl. apply FindROMByCRC_list_sound in Hl.
    destruct Hl as [_ Hl]. rewrite Nat.sub_0_r in Hl. exact Hl. }
  destruct t as [t|]; [|exact (Hlist H)].
  destruct (nth_error GameList t) as [G|] eqn:Et; [|exact (Hlist H)].
  destruct (FindROMByCRCInGame G c) as [j0|] eqn:Ej; [|exact (Hlist H)].
  injection H as <- <-. exists G. split; assumption.
Qed.

(** The biased title answers first. *)
Lemma FindROMByCRC_bias (g : GamePtr) (G : GameInfo) (c : Z) (j : nat) :
  nth_error GameList g = Some G ->
  FindROMByCRCInGame G c = Some j ->
  FindROMByCRC GameList (Some g) c = Some (g, j).
Proof.
  intros Hg Hj. unfold FindROMByCRC. rewrite Hg, Hj. reflexivity.
Qed.

Lemma FindROMByCRC_unbiased_none (t : option GamePtr) (c : Z) :
  FindROMByCRC GameList None c = None ->
  FindROMByCRC GameList t c = None.
Proof.
  intros H. destruct (FindROMByCRC GameList t c) as [[g j]|] eqn:E;
    [|reflexivity].
  apply FindROMByCRC_sound in E. destruct E as (G & HG & Hj).
  unfold FindROMByCRC in H.
  rewrite (FindROMByCRC_list_none c GameList 0 g G H HG) in Hj.
  discriminate.
Qed.

(** A hit found without bias is found again under its own title's bias. *)
Lemma FindROMByCRC_rebias (c : Z) (g j : nat) :
  FindROMByCRC GameList None c = Some (g, j) ->
  FindROMByCRC GameList (Some g) c = Some (g, j).
Proof.
  intros H. apply FindROMByCRC_sound in H. destruct H as (G & HG & Hj).
  exact (FindROMByCRC_bias g G c j HG Hj).
Qed.

(** Under the bias of a catalog title, a hit in another title means the
    biased title does not own the checksum. *)
Lemma FindROMByCRC_foreign (g g' : GamePtr) (G : GameInfo) (c : Z)
      (j : nat) :
  nth_error GameList g = Some G ->
  FindROMByCRC GameList (Some g) c = Some (g', j) -> g' <> g ->
  FindROMByCRCInGame G c = None.
Proof.
  intros Hg H Hne. unfold FindROMByCRC in H. rewrite Hg in H.
  destruct (FindROMByCRCInGame G c) as [j0|]; [|reflexivity].
  injection H as E _. congruence.
Qed.

End Lookup.

(** ** The scan pass *)

Lemma count_multi_app (l1 l2 : list Diag) :
  count_multi (l1 ++ l2) = (count_multi l1 + count_multi l2)%nat.
Proof.
  induction l1 as [|d l1 IH]; [reflexivity|].
  destruct d; cbn [app count_multi]; rewrite IH; reflexivity.
Qed.

Section Scan.

Variable GameList : list GameInfo.


(** One step once a title is identified. *)
Lemma scan_step_identified (st : ScanState) (e : ZipEntry) (g : GamePtr) :
  sGame st = Some g ->
  let st' := scan_step GameList st e in
  sGame st' = Some g /\
  (forall idx, sFound st' idx = sFound st idx || hits GameList g idx e) /\
  sMulti st' = sMulti st || foreign GameList g e /\
  count_multi (sLog st') =
    (count_multi (sLog st)
     + (if negb (sMulti st) && foreign GameList g e then 1 else 0))%nat.
Proof.
  intros Hg. unfold scan_step, hits, foreign. rewrite Hg.
  destruct (ze_info e); cbn [negb andb].
  2:{ rewrite ?Hg, orb_false_r, andb_false_r, Nat.add_0_r.
      repeat split; try reflexivity. intros idx. rewrite orb_false_r.
      reflexivity. }
  destruct (FindROMByCRC GameList (Some g) (u32 (ze_crc e)))
    as [[g' j]|].
  2:{ rewrite ?Hg, orb_false_r, andb_false_r, Nat.add_0_r.
      repeat split; try reflexivity. intros idx. rewrite orb_false_r.
      reflexivity. }
  destruct (Nat.eqb_spec g' g) as [->|Hne]; cbn [negb andb].
  - rewrite ?Hg, ?Nat.eqb_refl. cbn [sGame sFound sMulti sLog].
    rewrite ?Hg, orb_false_r, andb_false_r, Nat.add_0_r.
    repeat split; try reflexivity.
    intros idx. unfold mark. rewrite (Nat.eqb_sym idx j).
    destruct (Nat.eqb j idx); [rewrite orb_true_r|rewrite orb_false_r];
      reflexivity.
  - assert (Hsym : Nat.eqb g g' = false)
      by (apply Nat.eqb_neq; congruence).
    unfold DebugLog, ErrorLog.
    destruct (sMulti st); cbn [negb andb snd sGame sFound sMulti sLog];
      rewrite ?Hg, ?Hsym; cbn [sGame sFound sMulti sLog];
      rewrite ?count_multi_app; cbn [count_multi orb];
      (split; [reflexivity|]; split; [|split; [reflexivity|lia]]);
      intros idx; rewrite orb_false_r; reflexivity.
Qed.

(** One step while no title is identified yet. *)
Lemma scan_step_unidentified (st : ScanState) (e : ZipEntry) :
  sGame st = None ->
  scan_step GameList st e =
  if ze_info e then
    match FindROMByCRC GameList None (u32 (ze_crc e)) with
    | Some (g, j) =>
        mkScan (Some g) (mark (sFound st) j) (sMulti st)
               (sLog st ++ [DbgIdentified g])
    | None => st
    end
  else st.
Proof.
  intros Hg. unfold scan_step. rewrite Hg.
  destruct (ze_info e); cbn [negb]; [|reflexivity].
  destruct (FindROMByCRC GameList None (u32 (ze_crc e))) as [[g j]|];
    [|reflexivity].
  cbn [sGame sFound sMulti sLog DebugLog]. rewrite Nat.eqb_refl.
  reflexivity.
Qed.

(** The scan from an identified title on. *)
Lemma scan_identified (g : GamePtr) (entries : list ZipEntry) :
  forall st,
    sGame st = Some g ->
    let st' := scan GameList entries st in
    sGame st' = Some g /\
    (forall idx,
        sFound st' idx = sFound st idx || present GameList g entries idx) /\
    sMulti st' = sMulti st || contaminated GameList g entries /\
    count_multi (sLog st') =
      (count_multi (sLog st)
       + (if negb (sMulti st) && contaminated GameList g entries
          then 1 else 0))%nat.
Proof.
  induction entries as [|e rest IH]; intros st Hg.
  - cbn [scan present contaminated existsb].
    rewrite orb_false_r, andb_false_r, Nat.add_0_r.
    repeat split; try assumption; try reflexivity.
    intros idx. rewrite orb_false_r. reflexivity.
  - cbn [scan].
    destruct (scan_step_identified st e g Hg) as (H1 & H2 & H3 & H4).
    destruct (IH _ H1) as (I1 & I2 & I3 & I4).
    cbn zeta in *. split; [exact I1|]. split; [|split].
    + intros idx. rewrite I2, H2. unfold present. cbn [existsb].
      rewrite orb_assoc. reflexivity.
    + rewrite I3, H3. unfold contaminated. cbn [existsb].
      rewrite orb_assoc. reflexivity.
    + rewrite I4, H4, H3. unfold contaminated. cbn [existsb].
      destruct (sMulti st), (foreign GameList g e),
        (existsb (foreign GameList g) rest);
        cbn [negb andb orb]; lia.
Qed.


(** An entry that identifies [g] is image [j] of [g] and not foreign. *)
Lemma first_hit_facts (e : ZipEntry) (g : GamePtr) (j : nat) :
  ze_info e = true ->
  FindROMByCRC GameList None (u32 (ze_crc e)) = Some (g, j) ->
  foreign GameList g e = false /\
  forall idx, hits GameList g idx e = Nat.eqb j idx.
Proof.
  intros Hi H. apply FindROMByCRC_rebias in H.
  unfold foreign, hits. rewrite Hi, H, Nat.eqb_refl. cbn [negb andb].
  split; reflexivity.
Qed.

(** An entry nobody owns is neither foreign to nor an image of [g]. *)
Lemma no_hit_facts (e : ZipEntry) (g : GamePtr) :
  ze_info e = false \/
  FindROMByCRC GameList None (u32 (ze_crc e)) = None ->
  foreign GameList g e = false /\ forall idx, hits GameList g idx e = false.
Proof.
  intros [Hi|H]; unfold foreign, hits.
  - rewrite Hi. split; reflexivity.
  - rewrite (FindROMByCRC_unbiased_none GameList (Some g) _ H).
    rewrite !andb_false_r. split; reflexivity.
Qed.

(** The scan from the start: what is identified, found and warned. *)
Lemma scan_from_start (entries : list ZipEntry) :
  forall st,
    sGame st = None ->
    let st' := scan GameList entries st in
    match first_match GameList entries with
    | None => st' = st
    | Some (g, c) =>
        sGame st' = Some g /\
        (forall idx,
            sFound st' idx = sFound st idx || present GameList g entries idx) /\
        sMulti st' = sMulti st || contaminated GameList g entries /\
        count_multi (sLog st') =
          (count_multi (sLog st)
           + (if negb (sMulti st) && contaminated GameList g entries
              then 1 else 0))%nat
    end.
Proof.
  induction entries as [|e rest IH]; intros st Hg; [reflexivity|].
  cbn [scan first_match]. rewrite (scan_step_unidentified st e Hg).
  destruct (ze_info e) eqn:Hi.
  - destruct (FindROMByCRC GameList None (u32 (ze_crc e)))
      as [[g j]|] eqn:Hf.
    + destruct (first_hit_facts e g j Hi Hf) as [Hfor Hhit].
      destruct (scan_identified g rest
                  (mkScan (Some g) (mark (sFound st) j) (sMulti st)
                          (sLog st ++ [DbgIdentified g])) eq_refl)
        as (I1 & I2 & I3 & I4).
      cbn [sGame sFound sMulti sLog] in *. cbn zeta in *.
      split; [exact I1|]. split; [|split].
      * intros idx. rewrite I2. unfold present. cbn [existsb].
        rewrite Hhit. unfold mark. rewrite (Nat.eqb_sym idx j).
        destruct (Nat.eqb j idx), (sFound st idx); reflexivity.
      * rewrite I3. unfold contaminated. cbn [existsb]. rewrite Hfor.
        reflexivity.
      * rewrite I4, count_multi_app. unfold contaminated.
        cbn [existsb count_multi]. rewrite Hfor. cbn [orb]. lia.
    + specialize (IH st Hg). cbn zeta in IH.
      destruct (first_match GameList rest) as [[g c]|]; [|exact IH].
      destruct (no_hit_facts e g (or_intror Hf)) as [Hfor Hhit].
      unfold present, contaminated. cbn [existsb].
      rewrite Hfor. cbn [orb].
      destruct IH as (I1 & I2 & I3 & I4). repeat split; try assumption.
      intros idx. rewrite Hhit. cbn [orb]. apply I2.
  - specialize (IH st Hg). cbn zeta in IH.
    destruct (first_match GameList rest) as [[g c]|]; [|exact IH].
    destruct (no_hit_facts e g (or_introl Hi)) as [Hfor Hhit].
    unfold present, contaminated. cbn [existsb].
    rewrite Hfor. cbn [orb].
    destruct IH as (I1 & I2 & I3 & I4). repeat split; try assumption.
    intros idx. rewrite Hhit. cbn [orb]. apply I2.
Qed.

(** The identified title is a catalog entry that owns the checksum of
    the first matching archive entry. *)
Lemma first_match_in_catalog (entries : list ZipEntry) (g : GamePtr)
      (c : Z) :
  first_match GameList entries = Some (g, c) ->
  exists G R, nth_error GameList g = Some G /\ In R (ROM G) /\ crc R = c.
Proof.
  induction entries as [|e rest IH]; [discriminate|].
  cbn [first_match]. destruct (ze_info e); [|exact IH].
  destruct (FindROMByCRC GameList None (u32 (ze_crc e))) as [[g0 j]|] eqn:Hf;
    [|exact IH].
  intros H. injection H as <- <-.
  apply FindROMByCRC_sound in Hf. destruct Hf as (G & HG & Hj).
  apply FindROMByCRCInGame_sound in Hj. destruct Hj as (R & HR & Hc).
  exists G, R. split; [exact HG|]. split; [|exact Hc].
  eapply nth_error_In. exact HR.
Qed.

End Scan.

(** ** Completeness after the scan *)

Lemma absent_from_ext (roms : list ROMInfo) (f1 f2 : nat -> bool) :
  (forall k, f1 k = f2 k) ->
  forall i, absent_from i roms f1 = absent_from i roms f2.
Proof.
  intros Hext. induction roms as [|r rest IH]; intros i; [reflexivity|].
  cbn [absent_from]. rewrite Hext, IH. reflexivity.
Qed.

Lemma absent_from_nil (roms : list ROMInfo) (found : nat -> bool) :
  forall i, absent_from i roms found = [] ->
            forall k, (k < List.length roms)%nat -> found (i + k)%nat = true.
Proof.
  induction roms as [|r rest IH]; intros i H k Hk; cbn [List.length] in Hk;
    [lia|].
  cbn [absent_from] in H. destruct (found i) eqn:E; [|discriminate].
  destruct k as [|k].
  - rewrite Nat.add_0_r. exact E.
  - replace (i + S k)%nat with (S i + k)%nat by lia. apply IH; [exact H|lia].
Qed.

Lemma report_missing_spec (roms : list ROMInfo) (found : nat -> bool) :
  forall (i : nat) (err : BOOL) (log : list Diag),
    report_missing i roms found err log =
    (match absent_from i roms found with [] => err | _ :: _ => FAIL end,
     log ++ map missing_diag (absent_from i roms found)).
Proof.
  induction roms as [|r rest IH]; intros i err log.
  - cbn [report_missing absent_from map]. rewrite app_nil_r. reflexivity.
  - cbn [report_missing absent_from]. destruct (found i).
    + apply IH.
    + unfold ErrorLog. rewrite IH. cbn [map]. rewrite <- app_assoc.
      cbn [app]. unfold missing_diag at 3.
      destruct (absent_from (S i) rest found); destruct err; reflexivity.
Qed.

Lemma filter_missing_map (l : list ROMInfo) :
  filter is_missing (map missing_diag l) = map missing_diag l.
Proof.
  induction l as [|r l IH]; [reflexivity|].
  cbn [map filter missing_diag is_missing]. f_equal. exact IH.
Qed.

Lemma count_multi_missing (l : list ROMInfo) :
  count_multi (map missing_diag l) = 0%nat.
Proof. induction l as [|r l IH]; [reflexivity|exact IH]. Qed.

(** The scan only ever logs identification and contamination notes. *)
Lemma scan_step_no_missing (GameList : list GameInfo) (st : ScanState)
      (e : ZipEntry) :
  filter is_missing (sLog (scan_step GameList st e))
  = filter is_missing (sLog st).
Proof.
  unfold scan_step, DebugLog, ErrorLog.
  destruct (ze_info e); cbn [negb]; [|reflexivity].
  destruct (FindROMByCRC GameList (sGame st) (u32 (ze_crc e))) as [[g j]|];
    [|reflexivity].
  destruct (sGame st) as [g0|] eqn:Eg;
    cbn [negb sGame sLog sFound sMulti snd];
    repeat (first [ rewrite Eg
                  | match goal with
                    | |- context [if ?b then _ else _] => destruct b
                    end ];
            cbn [negb sGame sLog sFound sMulti snd]);
    rewrite ?filter_app; cbn [filter is_missing]; rewrite ?app_nil_r;
    reflexivity.
Qed.

Lemma scan_no_missing (GameList : list GameInfo) (entries : list ZipEntry) :
  forall st, filter is_missing (sLog (scan GameList entries st))
             = filter is_missing (sLog st).
Proof.
  induction entries as [|e rest IH]; intros st; [reflexivity|].
  cbn [scan]. rewrite IH. apply scan_step_no_missing.
Qed.

Section AfterScan.

Variables (fuel : nat) (Map : list ROMMap) (GameList : list GameInfo)
          (zf : ZipFile) (loadAll : bool) (alloc : option Buffer)
          (mem : Mem).

Let entries := zf_entries zf.
Let sc := scan GameList entries (scan_init []).

(** What the scan leaves behind, in terms of the archive's contents. *)
Lemma scan_outcome :
  match first_match GameList entries with
  | None => sGame sc = None /\ sLog sc = []
  | Some (g, c) =>
      sGame sc = Some g /\
      (forall idx, sFound sc idx = present GameList g entries idx) /\
      count_multi (sLog sc)
      = (if contaminated GameList g entries then 1 else 0)%nat
  end.
Proof.
  pose proof (scan_from_start GameList entries (scan_init []) eq_refl) as H.
  cbn zeta in H. fold sc in H.
  destruct (first_match GameList entries) as [[g c]|].
  - destruct H as (H1 & H2 & _ & H4). cbn in H4. repeat split; assumption.
  - rewrite H. split; reflexivity.
Qed.

(** The load when the scan identified nothing. *)
Lemma load_unidentified :
  zf_open zf = true -> zf_first zf = true ->
  first_match GameList entries = None ->
  LoadROMSetFromZIPFile fuel Map GameList zf loadAll alloc mem
  = Some (mkResult None mem [ErrNoSupportedGames]).
Proof.
  intros Ho Hf Hm. unfold LoadROMSetFromZIPFile. rewrite Ho, Hf.
  cbn [negb]. fold entries. fold sc.
  pose proof scan_outcome as H. rewrite Hm in H. destruct H as [H1 H2].
  rewrite H1, H2. reflexivity.
Qed.

(** The load when the scan found some image of the title absent. *)
Lemma load_incomplete (g : GamePtr) (c : Z) :
  zf_open zf = true -> zf_first zf = true ->
  first_match GameList entries = Some (g, c) ->
  absent_from 0 (game_roms GameList g) (present GameList g entries) <> [] ->
  LoadROMSetFromZIPFile fuel Map GameList zf loadAll alloc mem
  = Some (mkResult None mem
            (sLog sc ++
             map missing_diag
                 (absent_from 0 (game_roms GameList g)
                              (present GameList g entries)))).
Proof.
  intros Ho Hf Hm Habs. unfold LoadROMSetFromZIPFile. rewrite Ho, Hf.
  cbn [negb]. fold entries. fold sc.
  pose proof scan_outcome as H. rewrite Hm in H. destruct H as (H1 & H2 & _).
  rewrite H1, report_missing_spec.
  rewrite (absent_from_ext _ _ _ H2 0).
  destruct (absent_from 0 (game_roms GameList g)
                        (present GameList g entries)); [congruence|].
  reflexivity.
Qed.

(** The load when the scan found the title complete. *)
Lemma load_complete (g : GamePtr) (c : Z) :
  zf_open zf = true -> zf_first zf = true ->
  first_match GameList entries = Some (g, c) ->
  absent_from 0 (game_roms GameList g) (present GameList g entries) = [] ->
  LoadROMSetFromZIPFile fuel Map GameList zf loadAll alloc mem
  = let roms := game_roms GameList g in
    let maxSize := max_size roms 0 in
    match alloc with
    | None => Some (mkResult None mem (sLog sc ++ [ErrMemory maxSize]))
    | Some buf =>
        if negb (zf_again zf) then
          Some (mkResult None mem (sLog sc ++ [ErrContents]))
        else
          match load_entries fuel Map GameList g maxSize loadAll entries
                             (mkLoad none_found buf mem (sLog sc)) with
          | None => None
          | Some ld =>
              if loadAll then
                let '(n, log2) :=
                  count_loaded 0 roms (lFound ld) O (lLog ld) in
                if Nat.ltb n (List.length roms)
                then Some (mkResult None (lMem ld) log2)
                else Some (mkResult (Some g) (lMem ld) log2)
              else Some (mkResult (Some g) (lMem ld) (lLog ld))
          end
    end.
Proof.
  intros Ho Hf Hm Habs. unfold LoadROMSetFromZIPFile. rewrite Ho, Hf.
  cbn [negb]. fold entries. fold sc.
  pose proof scan_outcome as H. rewrite Hm in H. destruct H as (H1 & H2 & _).
  rewrite H1, report_missing_spec.
  rewrite (absent_from_ext _ _ _ H2 0), Habs.
  cbn [map]. rewrite app_nil_r. reflexivity.
Qed.

End AfterScan.

(** C2: nothing is written into a destination region before the scan has
    found every image of the identified title.  If no title is identified
    or some image is absent, the load returns null and the region memory
    is the one passed in; conversely a result whose memory differs
    anywhere from the initial one comes from a complete scan. *)
Theorem doomed_load_writes_nothing
        (fuel : nat) (Map : list ROMMap) (GameList : list GameInfo)
        (zf : ZipFile) (loadAll : bool) (alloc : option Buffer) (mem : Mem) :
  let entries := zf_entries zf in
  let run := LoadROMSetFromZIPFile fuel Map GameList zf loadAll alloc mem in
  ((first_match GameList entries = None \/
    exists g c, first_match GameList entries = Some (g, c) /\
                absent_from 0 (game_roms GameList g)
                            (present GameList g entries) <> []) ->
   exists log, run = Some (mkResult None mem log)) /\
  (forall r, run = Some r ->
             (exists p a, rMem r p a <> mem p a) ->
             exists g c, first_match GameList entries = Some (g, c) /\
                         absent_from 0 (game_roms GameList g)
                                     (present GameList g entries) = []).
Proof.
  intros entries run.
  assert (Hdoomed :
            (first_match GameList entries = None \/
             exists g c, first_match GameList entries = Some (g, c) /\
                         absent_from 0 (game_roms GameList g)
                                     (present GameList g entries) <> []) ->
            exists log, run = Some (mkResult None mem log)).
  { intros Hfail. subst run.
    destruct (zf_open zf) eqn:Ho.
    2:{ unfold LoadROMSetFromZIPFile. rewrite Ho. eexists. reflexivity. }
    destruct (zf_first zf) eqn:Hf.
    2:{ unfold LoadROMSetFromZIPFile. rewrite Ho, Hf. eexists. reflexivity. }
    destruct Hfail as [Hnone|(g & c & Hm & Habs)].
    - eexists. apply load_unidentified; assumption.
    - eexists. apply (load_incomplete fuel Map GameList zf loadAll alloc mem
                                      g c Ho Hf Hm Habs). }
  split; [exact Hdoomed|].
  intros r Hr (p & a & Hdiff).
  destruct (first_match GameList entries) as [[g c]|] eqn:Hm.
  - exists g, c. split; [reflexivity|].
    destruct (absent_from 0 (game_roms GameList g)
                          (present GameList g entries)) eqn:Habs;
      [reflexivity|].
    destruct Hdoomed as [log Hlog].
    { right. exists g, c. split; [reflexivity|]. rewrite Habs. discriminate. }
    rewrite Hlog in Hr. injection Hr as <-. cbn [rMem] in Hdiff.
    contradiction.
  - destruct Hdoomed as [log Hlog]; [left; reflexivity|].
    rewrite Hlog in Hr. injection Hr as <-. cbn [rMem] in Hdiff.
    contradiction.
Qed.

(** C5: when a title is identified but some of its images were not found
    by the scan, the load returns null, leaves the regions alone, and its
    log ends with one missing-image diagnostic for each absent image, in
    catalog order; these are all the missing-image diagnostics there are. *)
Theorem every_missing_image_reported
        (fuel : nat) (Map : list ROMMap) (GameList : list GameInfo)
        (zf : ZipFile) (loadAll : bool) (alloc : option Buffer) (mem : Mem)
        (g : GamePtr) (c : Z) :
  zf_open zf = true -> zf_first zf = true ->
  first_match GameList (zf_entries zf) = Some (g, c) ->
  let absent := absent_from 0 (game_roms GameList g)
                            (present GameList g (zf_entries zf)) in
  absent <> [] ->
  exists r,
    LoadROMSetFromZIPFile fuel Map GameList zf loadAll alloc mem = Some r /\
    rGame r = None /\ rMem r = mem /\
    rLog r = sLog (scan GameList (zf_entries zf) (scan_init []))
             ++ map missing_diag absent /\
    filter is_missing (rLog r) = map missing_diag absent.
Proof.
  intros Ho Hf Hm absent Habs.
  eexists. split.
  - apply (load_incomplete fuel Map GameList zf loadAll alloc mem g c
                           Ho Hf Hm Habs).
  - cbn [rGame rMem rLog]. repeat split.
    rewrite filter_app, scan_no_missing, filter_missing_map. reflexivity.
Qed.

(** ** The extraction pass *)

Section LoadROMFacts.

Variables (fuel : nat) (buf : Buffer) (bufSize : Z) (Map : list ROMMap)
          (R : ROMInfo) (e : ZipEntry) (loadAll : bool) (mem : Mem)
          (log : list Diag).

(** A length mismatch fails the image before anything is read. *)
Lemma LoadROM_wrong_size :
  ze_size e <> fileSize R ->
  exists log', LoadROM fuel buf bufSize Map R e loadAll mem log
               = Some (mkRomResult FAIL buf mem log').
Proof.
  intros Hne. unfold LoadROM, ErrorLog.
  destruct (ze_name e); cbn [negb]; [|eexists; reflexivity].
  replace (ze_size e =? fileSize R) with false
    by (symmetry; apply Z.eqb_neq; exact Hne).
  cbn [negb]. eexists. reflexivity.
Qed.

Lemma LoadROM_log (rr : RomResult) :
  LoadROM fuel buf bufSize Map R e loadAll mem log = Some rr ->
  count_multi (rr_log rr) = count_multi log.
Proof.
  unfold LoadROM, ErrorLog. intros H.
  repeat match type of H with
    | context [if ?b then _ else _] => destruct b; cbn [negb snd] in H
    | context [match ?x with Some _ => _ | None => _ end] =>
        destruct x; cbn [negb snd] in H
    end;
    try discriminate; injection H as <-; cbn [rr_log];
    rewrite ?count_multi_app; cbn [count_multi]; lia.
Qed.

End LoadROMFacts.

Lemma count_loaded_log (roms : list ROMInfo) (found : nat -> bool) :
  forall (i n : nat) (log : list Diag),
    count_multi (snd (count_loaded i roms found n log)) = count_multi log.
Proof.
  induction roms as [|r rest IH]; intros i n log; [reflexivity|].
  cbn [count_loaded]. destruct (found i); rewrite IH; [reflexivity|].
  unfold ErrorLog. cbn [snd]. rewrite count_multi_app. cbn [count_multi]. lia.
Qed.

Lemma count_loaded_le (roms : list ROMInfo) (found : nat -> bool) :
  forall (i n : nat) (log : list Diag),
    (fst (count_loaded i roms found n log) <= n + List.length roms)%nat.
Proof.
  induction roms as [|r rest IH]; intros i n log;
    cbn [count_loaded List.length fst];
    [lia|].
  destruct (found i).
  - specialize (IH (S i) (S n) log). lia.
  - specialize (IH (S i) n
                   (snd (ErrorLog log (ErrFailedLoad (file r) (crc r))))).
    lia.
Qed.

(** One unplaced image keeps the count below [numROMs]. *)
Lemma count_loaded_short (roms : list ROMInfo) (found : nat -> bool) :
  forall (i n k : nat) (log : list Diag),
    (k < List.length roms)%nat -> found (i + k)%nat = false ->
    (fst (count_loaded i roms found n log) < n + List.length roms)%nat.
Proof.
  induction roms as [|r rest IH]; intros i n k log Hk Hf;
    cbn [List.length] in *; [lia|].
  cbn [count_loaded]. destruct k as [|k].
  - rewrite Nat.add_0_r in Hf. rewrite Hf.
    pose proof (count_loaded_le rest found (S i) n
                  (snd (ErrorLog log (ErrFailedLoad (file r) (crc r))))).
    lia.
  - replace (i + S k)%nat with (S i + k)%nat in Hf by lia.
    destruct (found i).
    + specialize (IH (S i) (S n) k log ltac:(lia) Hf). lia.
    + specialize (IH (S i) n k
                     (snd (ErrorLog log (ErrFailedLoad (file r) (crc r))))
                     ltac:(lia) Hf). lia.
Qed.

Section Extraction.

Variables (fuel : nat) (Map : list ROMMap) (GameList : list GameInfo)
          (g : GamePtr) (maxSize : Z) (loadAll : bool).

Local Abbreviation step := (load_step fuel Map GameList g maxSize loadAll).
Local Abbreviation run := (load_entries fuel Map GameList g maxSize loadAll).

(** Entries the identified title does not own are passed over. *)
Lemma load_step_skips (st : LoadState) (e : ZipEntry) :
  owned GameList g e = false -> step st e = Some st.
Proof.
  unfold owned, load_step. destruct (ze_info e); cbn [negb andb];
    [|reflexivity].
  destruct (FindROMByCRC GameList (Some g) (u32 (ze_crc e))) as [[g' j]|];
    [|reflexivity].
  intros ->. reflexivity.
Qed.


(** An owned entry is handed to [LoadROM] with its catalog image. *)
Lemma load_step_owned (st : LoadState) (e : ZipEntry) (idx : nat) :
  hits GameList g idx e = true ->
  exists R, nth_error (game_roms GameList g) idx = Some R /\
            crc R = u32 (ze_crc e) /\
            step st e =
            match LoadROM fuel (lBuf st) maxSize Map R e loadAll
                          (lMem st) (lLog st) with
            | None => None
            | Some rr =>
                Some (mkLoad (match rr_ok rr with
                              | OKAY => mark (lFound st) idx
                              | FAIL => lFound st
                              end)
                             (rr_buf rr) (rr_mem rr) (rr_log rr))
            end.
Proof.
  unfold hits, load_step. intros H.
  destruct (ze_info e); cbn [negb andb] in *; [|discriminate].
  destruct (FindROMByCRC GameList (Some g) (u32 (ze_crc e)))
    as [[g' j]|] eqn:Hf; [|discriminate].
  apply andb_prop in H. destruct H as [Hg Hj].
  apply Nat.eqb_eq in Hg. apply Nat.eqb_eq in Hj. subst g' j.
  rewrite Nat.eqb_refl.
  apply FindROMByCRC_sound in Hf. destruct Hf as (G & HG & Hin).
  apply FindROMByCRCInGame_sound in Hin. destruct Hin as (R & HR & Hc).
  unfold game_roms. rewrite HG, HR. exists R.
  split; [reflexivity|]. split; [exact Hc|reflexivity].
Qed.

Lemma owned_hits (e : ZipEntry) :
  owned GameList g e = true -> exists idx, hits GameList g idx e = true.
Proof.
  unfold owned, hits. destruct (ze_info e); cbn [andb]; [|discriminate].
  destruct (FindROMByCRC GameList (Some g) (u32 (ze_crc e))) as [[g' j]|];
    [|discriminate].
  intros ->. exists j. rewrite Nat.eqb_refl. reflexivity.
Qed.

Lemma hits_unique (e : ZipEntry) (i j : nat) :
  hits GameList g i e = true -> hits GameList g j e = true -> i = j.
Proof.
  unfold hits. destruct (ze_info e); cbn [andb]; [|discriminate].
  destruct (FindROMByCRC GameList (Some g) (u32 (ze_crc e))) as [[g' k]|];
    [|discriminate].
  intros H1 H2. apply andb_prop in H1. apply andb_prop in H2.
  destruct H1 as [_ H1]. destruct H2 as [_ H2].
  apply Nat.eqb_eq in H1. apply Nat.eqb_eq in H2. congruence.
Qed.

Lemma load_step_log (st st' : LoadState) (e : ZipEntry) :
  step st e = Some st' -> count_multi (lLog st') = count_multi (lLog st).
Proof.
  intros H. destruct (owned GameList g e) eqn:Eo.
  - destruct (owned_hits e Eo) as [idx Hh].
    destruct (load_step_owned st e idx Hh) as (R & _ & _ & Hs).
    rewrite Hs in H.
    destruct (LoadROM fuel (lBuf st) maxSize Map R e loadAll (lMem st)
                      (lLog st)) as [rr|] eqn:Hl; [|discriminate].
    injection H as <-. cbn [lLog]. eapply LoadROM_log. exact Hl.
  - rewrite (load_step_skips st e Eo) in H. injection H as <-. reflexivity.
Qed.

Lemma load_entries_log (entries : list ZipEntry) :
  forall st st', run entries st = Some st' ->
                 count_multi (lLog st') = count_multi (lLog st).
Proof.
  induction entries as [|e rest IH]; intros st st' H; cbn [load_entries] in H.
  - injection H as <-. reflexivity.
  - destruct (step st e) as [st1|] eqn:Hs; [|discriminate].
    rewrite (IH _ _ H). eapply load_step_log. exact Hs.
Qed.

(** An image whose every entry has the wrong length is never marked. *)
Lemma load_entries_never_placed (idx : nat) (R : ROMInfo)
      (entries : list ZipEntry) :
  nth_error (game_roms GameList g) idx = Some R ->
  (forall e, In e entries -> hits GameList g idx e = true ->
             ze_size e <> fileSize R) ->
  forall st st',
    lFound st idx = false -> run entries st = Some st' ->
    lFound st' idx = false.
Proof.
  intros HR. induction entries as [|e rest IH]; intros Hall st st' Hf H;
    cbn [load_entries] in H.
  - injection H as <-. exact Hf.
  - destruct (step st e) as [st1|] eqn:Hs; [|discriminate].
    apply (IH (fun e' He' => Hall e' (or_intror He')) st1 st'); [|exact H].
    destruct (owned GameList g e) eqn:Eo.
    + destruct (owned_hits e Eo) as [j Hh].
      destruct (load_step_owned st e j Hh) as (R' & HR' & _ & Hs').
      rewrite Hs' in Hs.
      destruct (Nat.eq_dec j idx) as [->|Hne].
      * rewrite HR in HR'. injection HR' as <-.
        destruct (LoadROM_wrong_size fuel (lBuf st) maxSize Map R e loadAll
                    (lMem st) (lLog st) (Hall e (or_introl eq_refl) Hh))
          as [log' Hl].
        rewrite Hl in Hs. injection Hs as <-. exact Hf.
      * destruct (LoadROM fuel (lBuf st) maxSize Map R' e loadAll (lMem st)
                          (lLog st)) as [rr|]; [|discriminate].
        injection Hs as <-. cbn [lFound].
        destruct (rr_ok rr); [|exact Hf].
        unfold mark. replace (Nat.eqb idx j) with false
          by (symmetry; apply Nat.eqb_neq; congruence).
        exact Hf.
    + rewrite (load_step_skips st e Eo) in Hs. injection Hs as <-. exact Hf.
Qed.

End Extraction.

(** ** Termination of the extraction pass *)

Lemma place_group_snd (buf : Buffer) (destIdx : Z) (n : nat) :
  forall (j : Z) (dst : Buffer) (srcIdx : Z),
    0 <= srcIdx -> srcIdx + Z.of_nat n < wordsize ->
    snd (place_group n j dst buf destIdx srcIdx) = srcIdx + Z.of_nat n.
Proof.
  induction n as [|n IH]; intros j dst srcIdx Hs Hse.
  - cbn [place_group snd]. lia.
  - cbn [place_group]. rewrite (u32_small (srcIdx + 1)) by lia.
    rewrite IH by lia. lia.
Qed.

Lemma place_loop_returns (R : ROMInfo) (buf : Buffer) (fuel : nat) :
  0 < groupSize R -> fileSize R + groupSize R < wordsize ->
  forall (dst : Buffer) (destIdx srcIdx : Z),
    0 <= srcIdx -> Z.max 0 (fileSize R - srcIdx) < Z.of_nat fuel ->
    exists d, place_loop fuel R dst buf destIdx srcIdx = Some d.
Proof.
  intros Hg Hw. induction fuel as [|fuel IH];
    intros dst destIdx srcIdx Hs Hfuel; [lia|].
  cbn [place_loop]. destruct (srcIdx <? fileSize R) eqn:Elt.
  - apply Z.ltb_lt in Elt.
    pose proof (place_group_snd buf destIdx (Z.to_nat (groupSize R)) 0 dst
                  srcIdx Hs) as Hsnd.
    rewrite Z2Nat.id in Hsnd by lia. specialize (Hsnd ltac:(lia)).
    destruct (place_group (Z.to_nat (groupSize R)) 0 dst buf destIdx srcIdx)
      as [dst' srcIdx'].
    cbn [snd] in Hsnd. subst srcIdx'. apply IH; lia.
  - eexists. reflexivity.
Qed.

Lemma LoadROM_returns (fuel : nat) (buf : Buffer) (bufSize : Z)
      (Map : list ROMMap) (R : ROMInfo) (e : ZipEntry) (loadAll : bool)
      (mem : Mem) (log : list Diag) :
  placeable fuel R ->
  exists rr, LoadROM fuel buf bufSize Map R e loadAll mem log = Some rr.
Proof.
  intros (Hg & Hf & Hw & Hfuel). unfold LoadROM, ErrorLog.
  destruct (ze_name e); cbn [negb]; [|eexists; reflexivity].
  destruct (ze_size e =? fileSize R); cbn [negb]; [|eexists; reflexivity].
  destruct (ze_open e); cbn [negb]; [|eexists; reflexivity].
  destruct (u32 (ze_read e) =? fileSize R); cbn [negb];
    [|eexists; reflexivity].
  assert (Hswap : exists b2,
             (if byteSwap R
              then ByteSwap fuel (blit buf (ze_data e) bufSize) (fileSize R)
              else Some (blit buf (ze_data e) bufSize)) = Some b2).
  { destruct (byteSwap R); [|eexists; reflexivity].
    apply ByteSwap_loop_returns; lia. }
  destruct Hswap as [b2 ->].
  destruct (find_region Map (region R)) as [p|].
  - destruct (place_loop_returns R b2 fuel Hg Hw (mem p) (offset R) 0)
      as [d Hd]; try lia.
    unfold place. rewrite Hd. eexists. reflexivity.
  - destruct loadAll; eexists; reflexivity.
Qed.

Lemma load_entries_returns (fuel : nat) (Map : list ROMMap)
      (GameList : list GameInfo) (g : GamePtr) (maxSize : Z) (loadAll : bool)
      (entries : list ZipEntry) :
  (forall R, In R (game_roms GameList g) -> placeable fuel R) ->
  forall st, exists st',
      load_entries fuel Map GameList g maxSize loadAll entries st = Some st'.
Proof.
  intros Hwf. induction entries as [|e rest IH]; intros st.
  - eexists. reflexivity.
  - cbn [load_entries].
    assert (Hs : exists st1,
               load_step fuel Map GameList g maxSize loadAll st e = Some st1).
    { destruct (owned GameList g e) eqn:Eo.
      - destruct (owned_hits GameList g e Eo) as [idx Hh].
        destruct (load_step_owned fuel Map GameList g maxSize loadAll st e idx
                                  Hh) as (R & HR & _ & ->).
        destruct (LoadROM_returns fuel (lBuf st) maxSize Map R e loadAll
                    (lMem st) (lLog st)) as [rr ->].
        + apply Hwf. eapply nth_error_In. exact HR.
        + eexists. reflexivity.
      - rewrite load_step_skips by exact Eo. eexists. reflexivity. }
    destruct Hs as [st1 ->]. apply IH.
Qed.

(** ** The whole load *)

Section WholeLoad.

Variables (fuel : nat) (Map : list ROMMap) (GameList : list GameInfo)
          (zf : ZipFile) (loadAll : bool) (alloc : option Buffer)
          (mem : Mem).

Let entries := zf_entries zf.
Let sc := scan GameList entries (scan_init []).
Let run := LoadROMSetFromZIPFile fuel Map GameList zf loadAll alloc mem.

(** With placeable images the load always comes back. *)
Lemma load_returns (g : GamePtr) (c : Z) :
  first_match GameList entries = Some (g, c) ->
  (forall R, In R (game_roms GameList g) -> placeable fuel R) ->
  exists r, run = Some r.
Proof.
  intros Hm Hwf. subst run.
  destruct (zf_open zf) eqn:Ho.
  2:{ unfold LoadROMSetFromZIPFile. rewrite Ho. eexists. reflexivity. }
  destruct (zf_first zf) eqn:Hf.
  2:{ unfold LoadROMSetFromZIPFile. rewrite Ho, Hf. eexists. reflexivity. }
  destruct (absent_from 0 (game_roms GameList g)
                        (present GameList g entries)) as [|a l] eqn:Habs.
  - rewrite (load_complete fuel Map GameList zf loadAll alloc mem g c
                           Ho Hf Hm Habs).
    cbn zeta. destruct alloc as [buf|]; [|eexists; reflexivity].
    destruct (zf_again zf); cbn [negb]; [|eexists; reflexivity].
    destruct (load_entries_returns fuel Map GameList g
                (max_size (game_roms GameList g) 0) loadAll
                (zf_entries zf) Hwf
                (mkLoad none_found buf mem
                        (sLog (scan GameList (zf_entries zf) (scan_init [])))))
      as [ld ->].
    destruct loadAll; [|eexists; reflexivity].
    destruct (count_loaded 0 (game_roms GameList g) (lFound ld) 0 (lLog ld))
      as [n log2].
    destruct (Nat.ltb n (List.length (game_roms GameList g)));
      eexists; reflexivity.
  - eexists.
    apply (load_incomplete fuel Map GameList zf loadAll alloc mem g c
                           Ho Hf Hm).
    fold entries. rewrite Habs. discriminate.
Qed.

(** Whatever comes back names the identified title or nothing, and no
    multiple-games warning is logged after the scan. *)
Lemma load_result_facts (g : GamePtr) (c : Z) (r : Result) :
  zf_open zf = true -> zf_first zf = true ->
  first_match GameList entries = Some (g, c) ->
  run = Some r ->
  count_multi (rLog r) = count_multi (sLog sc) /\
  (rGame r = None \/ rGame r = Some g).
Proof.
  intros Ho Hf Hm Hr. subst run.
  destruct (absent_from 0 (game_roms GameList g)
                        (present GameList g entries)) as [|a l] eqn:Habs.
  - rewrite (load_complete fuel Map GameList zf loadAll alloc mem g c
                           Ho Hf Hm Habs) in Hr.
    cbn zeta in Hr. fold entries in Hr. fold sc in Hr.
    destruct alloc as [buf|].
    2:{ injection Hr as <-. cbn [rLog rGame]. rewrite count_multi_app.
        cbn [count_multi]. split; [lia|left; reflexivity]. }
    destruct (zf_again zf); cbn [negb] in Hr.
    2:{ injection Hr as <-. cbn [rLog rGame]. rewrite count_multi_app.
        cbn [count_multi]. split; [lia|left; reflexivity]. }
    destruct (load_entries fuel Map GameList g
                (max_size (game_roms GameList g) 0) loadAll entries
                (mkLoad none_found buf mem (sLog sc))) as [ld|] eqn:Hld;
      [|discriminate].
    apply load_entries_log in Hld. cbn [lLog] in Hld.
    destruct loadAll.
    + pose proof (count_loaded_log (game_roms GameList g) (lFound ld) 0 0
                    (lLog ld)) as Hcl.
      destruct (count_loaded 0 (game_roms GameList g) (lFound ld) 0 (lLog ld))
        as [n log2].
      cbn [snd] in Hcl.
      destruct (Nat.ltb n (List.length (game_roms GameList g)));
        injection Hr as <-; cbn [rLog rGame];
        (split; [congruence|]); [left|right]; reflexivity.
    + injection Hr as <-. cbn [rLog rGame].
      split; [exact Hld|right; reflexivity].
  - rewrite (load_incomplete fuel Map GameList zf loadAll alloc mem g c
                             Ho Hf Hm) in Hr
      by (fold entries; rewrite Habs; discriminate).
    injection Hr as <-. cbn [rLog rGame]. fold entries. fold sc.
    rewrite count_multi_app, count_multi_missing.
    split; [lia|left; reflexivity].
Qed.

(** A non-null result comes from an archive that opened and listed. *)
Lemma load_some_opened (r : Result) (g : GamePtr) :
  run = Some r -> rGame r = Some g ->
  zf_open zf = true /\ zf_first zf = true.
Proof.
  subst run. unfold LoadROMSetFromZIPFile. intros Hr Hg.
  destruct (zf_open zf); cbn [negb] in Hr.
  2:{ injection Hr as <-. discriminate. }
  destruct (zf_first zf); cbn [negb] in Hr.
  2:{ injection Hr as <-. discriminate. }
  split; reflexivity.
Qed.

End WholeLoad.

(** ** Foreign entries are inert *)


Section Inert.

Variables (fuel : nat) (Map : list ROMMap) (GameList : list GameInfo)
          (g : GamePtr) (maxSize : Z) (loadAll : bool).



End Inert.


Section OwnEntries.

Variables (GameList : list GameInfo) (g : GamePtr).

Lemma hits_owned (e : ZipEntry) (idx : nat) :
  hits GameList g idx e = true -> owned GameList g e = true.
Proof.
  unfold hits, owned. destruct (ze_info e); cbn [andb]; [|discriminate].
  destruct (FindROMByCRC GameList (Some g) (u32 (ze_crc e))) as [[g' j]|];
    [|discriminate].
  intros H. apply andb_prop in H. apply H.
Qed.



Lemma filter_owned_twice (entries : list ZipEntry) :
  filter (owned GameList g) (filter (owned GameList g) entries)
  = filter (owned GameList g) entries.
Proof.
  induction entries as [|e rest IH]; [reflexivity|].
  cbn [filter]. destruct (owned GameList g e) eqn:Eo; [|exact IH].
  cbn [filter]. rewrite Eo, IH. reflexivity.
Qed.

End OwnEntries.


Lemma catalog_placeable (R : ROMInfo) :
  In R (game_roms catalog 0) -> placeable 5 R.
Proof.
  cbn. intros [<-|[<-|[]]]; unfold placeable; cbn; rewrite ?wordsize_val; lia.
Defined.

Lemma doomed_load_writes_nothing_witness :
  exists log,
    LoadROMSetFromZIPFile 5 bindings catalog zip_partial true (Some zeros) blank
    = Some (mkResult None blank log).
Proof.
  apply (proj1 (doomed_load_writes_nothing 5 bindings catalog zip_partial true
                                           (Some zeros) blank)).
  right. exists 0%nat, 100. split; [reflexivity|]. cbn. discriminate.
Defined.

Lemma every_missing_image_reported_witness :
  exists r,
    LoadROMSetFromZIPFile 5 bindings catalog zip_partial true (Some zeros) blank
    = Some r /\
    rGame r = None /\ rMem r = blank /\
    rLog r = sLog (scan catalog (zf_entries zip_partial) (scan_init []))
             ++ map missing_diag [romA1] /\
    filter is_missing (rLog r) = map missing_diag [romA1].
Proof.
  apply (every_missing_image_reported 5 bindings catalog zip_partial true
                                      (Some zeros) blank 0%nat 100);
    try reflexivity.
  cbn. discriminate.
Defined.

(** C10: a non-null result is a pointer to an entry of the catalog that
    was passed in, namely the title of the first matching archive entry,
    whose image list holds that entry's checksum. *)
Theorem returned_title_in_catalog
        (fuel : nat) (Map : list ROMMap) (GameList : list GameInfo)
        (zf : ZipFile) (loadAll : bool) (alloc : option Buffer) (mem : Mem)
        (r : Result) (g : GamePtr) :
  LoadROMSetFromZIPFile fuel Map GameList zf loadAll alloc mem = Some r ->
  rGame r = Some g ->
  exists c G R,
    first_match GameList (zf_entries zf) = Some (g, c) /\
    nth_error GameList g = Some G /\ In R (ROM G) /\ crc R = c.
Proof.
  intros Hr Hg.
  destruct (load_some_opened fuel Map GameList zf loadAll alloc mem r g Hr Hg)
    as [Ho Hf].
  destruct (first_match GameList (zf_entries zf)) as [[g0 c]|] eqn:Hm.
  - destruct (load_result_facts fuel Map GameList zf loadAll alloc mem g0 c r
                                Ho Hf Hm Hr) as [_ [Hn|Hs]];
      [congruence|].
    assert (g0 = g) by congruence. subst g0.
    destruct (first_match_in_catalog GameList (zf_entries zf) g c Hm)
      as (G & R & HG & HR & Hc).
    exists c, G, R. repeat split; assumption.
  - rewrite (load_unidentified fuel Map GameList zf loadAll alloc mem Ho Hf Hm)
      in Hr.
    injection Hr as <-. discriminate.
Qed.

Lemma returned_title_in_catalog_witness :
  exists r, run_complete = Some r /\ rGame r = Some 0%nat /\
    exists c G R,
      first_match catalog (zf_entries zip_complete) = Some (0%nat, c) /\
      nth_error catalog 0 = Some G /\ In R (ROM G) /\ crc R = c.
Proof.
  eexists. split; [reflexivity|]. split; [reflexivity|].
  eapply (returned_title_in_catalog 5 bindings catalog zip_complete true
                                    (Some zeros) blank);
    reflexivity.
Defined.

(** * Further properties of the loader *)

(** ** CopyRegion from any offset *)

Lemma CopyRegion_fills_from (src : Buffer) (N k base : Z) (fuel : nat) :
  0 < k -> 0 <= base -> N + k <= wordsize ->
  forall (dest : Buffer) (off : Z),
    base <= off -> (off - base) mod k = 0 ->
    Z.max 0 (N - off) < Z.of_nat fuel ->
    exists d, CopyRegion fuel dest off N src k = Some d /\
              (forall a, off <= a < N -> d a = src ((a - base) mod k)) /\
              (forall a, a < off \/ N <= a -> d a = dest a).
Proof.
  intros Hk Hbase Hw.
  induction fuel as [|fuel IH]; intros dest off Hoff Hm Hfuel; [lia|].
  cbn [CopyRegion]. destruct (off <? N) eqn:Elt.
  - apply Z.ltb_lt in Elt. rewrite (u32_small (off + k)) by lia.
    destruct (off + k >=? N) eqn:Etrim.
    + apply Z.geb_le in Etrim.
      rewrite (u32_small (N - off)) by lia.
      replace (off + (N - off)) with N by lia.
      rewrite (u32_small N) by lia.
      destruct fuel as [|fuel]; [lia|].
      cbn [CopyRegion]. rewrite Z.ltb_irrefl.
      eexists. split; [reflexivity|]. split.
      * intros a Ha. rewrite memcpy_in by lia.
        rewrite (tile_mod k Hk (off - base) (a - base)) by lia.
        f_equal. lia.
      * intros a Ha. apply memcpy_out. lia.
    + assert (Hlt : off + k < N).
      { destruct (Z.geb_spec (off + k) N); [discriminate|lia]. }
      rewrite (u32_small (off + k)) by lia.
      destruct (IH (memcpy dest off src k) (off + k)) as (d & Hd & Hin & Hout).
      * lia.
      * replace (off + k - base) with (off - base + 1 * k) by lia.
        rewrite Z.mod_add by lia. exact Hm.
      * lia.
      * exists d. split; [exact Hd|]. split.
        -- intros a Ha. destruct (Z.lt_ge_cases a (off + k)) as [Hl|Hg].
           ++ rewrite Hout by lia. rewrite memcpy_in by lia.
              rewrite (tile_mod k Hk (off - base) (a - base)) by lia.
              f_equal. lia.
           ++ apply Hin. lia.
        -- intros a Ha. rewrite Hout by lia. apply memcpy_out. lia.
  - apply Z.ltb_ge in Elt. exists dest. split; [reflexivity|]. split.
    + intros a Ha. lia.
    + intros a Ha. reflexivity.
Qed.

(** X1: without wrap-around ([destSize + srcSize <= 2^32]) and with a
    positive [srcSize], [CopyRegion] returns; every byte from
    [destOffset] up to [destSize] then holds the source byte at its
    distance from [destOffset] modulo [srcSize], and no byte below
    [destOffset] or from [destSize] on is changed. *)
Theorem CopyRegion_fills (dest src : Buffer) (destOffset destSize srcSize : Z)
        (fuel : nat) :
  0 < srcSize -> 0 <= destOffset -> destSize + srcSize <= wordsize ->
  Z.max 0 (destSize - destOffset) < Z.of_nat fuel ->
  exists d,
    CopyRegion fuel dest destOffset destSize src srcSize = Some d /\
    (forall a, destOffset <= a < destSize ->
               d a = src ((a - destOffset) mod srcSize)) /\
    (forall a, a < destOffset \/ destSize <= a -> d a = dest a).
Proof.
  intros Hs Ho Hw Hfuel.
  apply (CopyRegion_fills_from src destSize srcSize destOffset fuel Hs Ho Hw
                               dest destOffset); try lia.
  rewrite Z.sub_diag. apply Z.mod_0_l. lia.
Qed.

Lemma CopyRegion_fills_witness :
  exists d,
    CopyRegion 9 zeros 3 10 marked_src 4 = Some d /\
    (forall a, 3 <= a < 10 -> d a = marked_src ((a - 3) mod 4)) /\
    (forall a, a < 3 \/ 10 <= a -> d a = zeros a).
Proof.
  apply (CopyRegion_fills zeros marked_src 3 10 4 9);
    rewrite ?wordsize_val; lia.
Defined.

(** X2: with [srcSize = 0] the loop is left only if it is never entered:
    when [destOffset < destSize] no amount of fuel makes [CopyRegion]
    return, and when [destSize <= destOffset] it returns the destination
    as it was. *)
Theorem CopyRegion_empty_source (dest src : Buffer) (destOffset destSize : Z) :
  is_u32 destOffset ->
  (destOffset < destSize ->
   forall fuel, CopyRegion fuel dest destOffset destSize src 0 = None) /\
  (destSize <= destOffset ->
   forall fuel, CopyRegion (S fuel) dest destOffset destSize src 0
                = Some dest).
Proof.
  intros Hu. split.
  - intros Hlt fuel.
    apply (CopyRegion_zero_diverges src destSize destOffset Hu Hlt).
  - intros Hge fuel. cbn [CopyRegion].
    replace (destOffset <? destSize) with false
      by (symmetry; apply Z.ltb_ge; exact Hge).
    reflexivity.
Qed.

Lemma CopyRegion_empty_source_witness :
  CopyRegion 7 zeros 2 8 marked_src 0 = None.
Proof.
  apply (proj1 (CopyRegion_empty_source zeros marked_src 2 8
                  ltac:(unfold is_u32; rewrite wordsize_val; lia))).
  lia.
Defined.

(** ** ByteSwap: what it writes and when it returns *)

(** X3: for a size up to [2^32 - 2], [ByteSwap] returns the buffer with
    the two bytes of every pair [(2m, 2m+1)] starting below [size]
    exchanged and every other byte as it was.  For an odd [size] the last
    pair reaches index [size] itself, one byte past the range given: that
    byte receives the old byte at [size - 1]. *)
Theorem ByteSwap_pairs (buf : Buffer) (size : Z) (fuel : nat) :
  size <= wordsize - 2 -> Z.max 0 size < Z.of_nat fuel ->
  exists b,
    ByteSwap fuel buf size = Some b /\
    (forall m, 0 <= 2 * m < size ->
               b (2 * m) = buf (2 * m + 1) /\ b (2 * m + 1) = buf (2 * m)) /\
    (forall a, a < 0 \/ size + size mod 2 <= a -> b a = buf a) /\
    (0 < size -> Z.odd size = true -> b size = buf (size - 1)).
Proof.
  intros Hs Hfuel.
  destruct (ByteSwap_loop_returns size fuel Hs buf 0 ltac:(lia) ltac:(lia))
    as [b Hb].
  pose proof (ByteSwap_loop_spec size fuel Hs buf b 0 eq_refl ltac:(lia) Hb)
    as Hspec.
  assert (Hmod : size mod 2 = 0 \/ size mod 2 = 1)
    by (pose proof (Z.mod_pos_bound size 2 ltac:(lia)); lia).
  pose proof (Z.div_mod size 2 ltac:(lia)) as Hdm.
  exists b. split; [exact Hb|]. split; [|split].
  - intros m Hm. rewrite !Hspec. unfold pairs_swapped, swap_end.
    replace (Z.even (2 * m)) with true
      by (symmetry; replace (2 * m) with (0 + 2 * m) by lia;
          rewrite Z.even_add_mul_2; reflexivity).
    replace (Z.even (2 * m + 1)) with false
      by (symmetry; rewrite Z.add_comm, Z.even_add_mul_2; reflexivity).
    split; range_bool; try lia; f_equal; lia.
  - intros a Ha. rewrite Hspec. unfold pairs_swapped, swap_end.
    range_bool; try reflexivity; lia.
  - intros Hpos Hodd. rewrite Hspec. unfold pairs_swapped, swap_end.
    rewrite <- Z.negb_odd, Hodd. cbn [negb].
    apply Z.odd_spec in Hodd. destruct Hodd as [m Hm2].
    range_bool; try reflexivity; lia.
Qed.

Lemma ByteSwap_pairs_witness :
  exists b,
    ByteSwap 4 marked_src 3 = Some b /\
    (forall m, 0 <= 2 * m < 3 ->
               b (2 * m) = marked_src (2 * m + 1) /\
               b (2 * m + 1) = marked_src (2 * m)) /\
    (forall a, a < 0 \/ 3 + 3 mod 2 <= a -> b a = marked_src a) /\
    (0 < 3 -> Z.odd 3 = true -> b 3 = marked_src (3 - 1)).
Proof.
  apply (ByteSwap_pairs marked_src 3 4); rewrite ?wordsize_val; lia.
Defined.

(** X4: for an unsigned [size], [ByteSwap] returns for some amount of
    fuel exactly when [size <= 2^32 - 2]; at [2^32 - 1] the counter, which
    advances by two, wraps past the bound and the loop never ends. *)
Theorem ByteSwap_returns_iff (buf : Buffer) (size : Z) :
  is_u32 size ->
  ((exists fuel b, ByteSwap fuel buf size = Some b) <->
   size <= wordsize - 2).
Proof.
  intros [Hlo Hhi]. split.
  - intros (fuel & b & Hb).
    destruct (Z.le_gt_cases size (wordsize - 2)) as [H|H]; [exact H|].
    unfold ByteSwap in Hb.
    rewrite (ByteSwap_loop_diverges size fuel) in Hb;
      [discriminate|lia|reflexivity|rewrite wordsize_val; lia].
  - intros Hs.
    destruct (ByteSwap_loop_returns size (S (Z.to_nat size)) Hs buf 0
                ltac:(lia) ltac:(lia)) as [b Hb].
    exists (S (Z.to_nat size)), b. exact Hb.
Qed.

Lemma ByteSwap_returns_iff_witness :
  (exists fuel b, ByteSwap fuel zeros 6 = Some b) <-> 6 <= wordsize - 2.
Proof.
  apply (ByteSwap_returns_iff zeros 6).
  unfold is_u32. rewrite wordsize_val. lia.
Defined.

(** ** Catalog lookup: which hit is returned *)

Lemma FindROMByCRCInGame_from_first (roms : list ROMInfo) (c : Z) :
  forall (j i : nat),
    FindROMByCRCInGame_from j roms c = Some i ->
    forall k R, (k < i - j)%nat -> nth_error roms k = Some R -> crc R <> c.
Proof.
  induction roms as [|r rest IH]; intros j i H k R Hk HR; [discriminate|].
  cbn [FindROMByCRCInGame_from] in H.
  destruct (c =? crc r) eqn:E.
  - injection H as <-. lia.
  - apply Z.eqb_neq in E. destruct k as [|k]; cbn [nth_error] in HR.
    + injection HR as <-. congruence.
    + pose proof (FindROMByCRCInGame_from_sound rest c (S j) i H) as [Hle _].
      apply (IH (S j) i H k R); [lia|exact HR].
Qed.

Lemma FindROMByCRCInGame_from_none (roms : list ROMInfo) (c : Z) :
  forall j, FindROMByCRCInGame_from j roms c = None <->
            forall R, In R roms -> crc R <> c.
Proof.
  induction roms as [|r rest IH]; intros j; cbn [FindROMByCRCInGame_from].
  - split; [intros _ R []|reflexivity].
  - destruct (c =? crc r) eqn:E.
    + apply Z.eqb_eq in E. split; [discriminate|].
      intros H. exfalso. apply (H r (or_introl eq_refl)). congruence.
    + apply Z.eqb_neq in E. rewrite IH. split.
      * intros H R [<-|HR]; [congruence|exact (H R HR)].
      * intros H R HR. exact (H R (or_intror HR)).
Qed.

(** X5: [FindROMByCRCInGame] answers the first image of the game with the
    checksum sought: the image at the index returned has it and no image
    before has; and it fails exactly when no image of the game has it. *)
Theorem FindROMByCRCInGame_first (G : GameInfo) (c : Z) :
  (forall i, FindROMByCRCInGame G c = Some i ->
             exists R, nth_error (ROM G) i = Some R /\ crc R = c /\
                       forall k R', (k < i)%nat ->
                                    nth_error (ROM G) k = Some R' ->
                                    crc R' <> c) /\
  (FindROMByCRCInGame G c = None <-> forall R, In R (ROM G) -> crc R <> c).
Proof.
  split.
  - intros i H. destruct (FindROMByCRCInGame_sound G c i H) as (R & HR & Hc).
    exists R. split; [exact HR|]. split; [exact Hc|].
    intros k R' Hk HR'.
    apply (FindROMByCRCInGame_from_first (ROM G) c 0 i H k R'); [lia|exact HR'].
  - apply FindROMByCRCInGame_from_none.
Qed.

Lemma FindROMByCRCInGame_first_witness :
  exists R, nth_error (ROM gameA) 1 = Some R /\ crc R = 101 /\
            forall k R', (k < 1)%nat -> nth_error (ROM gameA) k = Some R' ->
                         crc R' <> 101.
Proof.
  apply (proj1 (FindROMByCRCInGame_first gameA 101) 1%nat). reflexivity.
Defined.

Lemma FindROMByCRC_list_first (c : Z) (games : list GameInfo) :
  forall (i g j : nat),
    FindROMByCRC_list i games c = Some (g, j) ->
    forall k G, (k < g - i)%nat -> nth_error games k = Some G ->
                FindROMByCRCInGame G c = None.
Proof.
  induction games as [|G0 rest IH]; intros i g j H k G Hk HG; [discriminate|].
  cbn [FindROMByCRC_list] in H.
  destruct (FindROMByCRCInGame G0 c) as [j0|] eqn:E.
  - injection H as <- <-. lia.
  - destruct k as [|k]; cbn [nth_error] in HG.
    + injection HG as <-. exact E.
    + pose proof (FindROMByCRC_list_sound c rest (S i) g j H) as [Hle _].
      apply (IH (S i) g j H k G); [lia|exact HG].
Qed.

Lemma FindROMByCRC_list_all_none (c : Z) (games : list GameInfo) :
  (forall G, In G games -> FindROMByCRCInGame G c = None) ->
  forall i, FindROMByCRC_list i games c = None.
Proof.
  induction games as [|G0 rest IH]; intros H i; [reflexivity|].
  cbn [FindROMByCRC_list]. rewrite (H G0 (or_introl eq_refl)).
  apply IH. intros G HG. exact (H G (or_intror HG)).
Qed.

(** X6: whatever the bias, [FindROMByCRC] fails exactly when no title of
    the catalog owns the checksum: the title tried first changes which
    hit is answered, never whether there is one. *)
Theorem FindROMByCRC_fails_iff (GameList : list GameInfo)
        (TryGame : option GamePtr) (c : Z) :
  FindROMByCRC GameList TryGame c = None <->
  forall G, In G GameList -> FindROMByCRCInGame G c = None.
Proof.
  split.
  - intros H G HG. apply In_nth_error in HG. destruct HG as [k Hk].
    assert (Hl : FindROMByCRC_list 0 GameList c = None).
    { unfold FindROMByCRC in H.
      destruct TryGame as [t|]; [|exact H].
      destruct (nth_error GameList t) as [T|]; [|exact H].
      destruct (FindROMByCRCInGame T c); [discriminate|exact H]. }
    exact (FindROMByCRC_list_none c GameList 0 k G Hl Hk).
  - intros H. unfold FindROMByCRC.
    rewrite (FindROMByCRC_list_all_none c GameList H 0).
    destruct TryGame as [t|]; [|reflexivity].
    destruct (nth_error GameList t) as [T|] eqn:Et; [|reflexivity].
    rewrite (H T (nth_error_In _ _ Et)). reflexivity.
Qed.

(** X7: the hit [FindROMByCRC] answers.  A biased title that owns the
    checksum is answered even when an earlier title of the catalog owns
    it too; every answer is a catalog title with the first of its images
    that has the checksum; and an answer other than the biased title is
    the first title in catalog order that owns the checksum. *)
Theorem FindROMByCRC_order (GameList : list GameInfo)
        (TryGame : option GamePtr) (c : Z) :
  (forall t T j, TryGame = Some t -> nth_error GameList t = Some T ->
                 FindROMByCRCInGame T c = Some j ->
                 FindROMByCRC GameList TryGame c = Some (t, j)) /\
  (forall g j,
      FindROMByCRC GameList TryGame c = Some (g, j) ->
      (exists G, nth_error GameList g = Some G /\
                 FindROMByCRCInGame G c = Some j) /\
      (TryGame = Some g \/
       forall k G, (k < g)%nat -> nth_error GameList k = Some G ->
                   FindROMByCRCInGame G c = None)).
Proof.
  split.
  - intros t T j -> HT Hj. exact (FindROMByCRC_bias GameList t T c j HT Hj).
  - intros g j H. split; [exact (FindROMByCRC_sound GameList TryGame c g j H)|].
    assert (Hlist : FindROMByCRC_list 0 GameList c = Some (g, j) ->
                    forall k G, (k < g)%nat -> nth_error GameList k = Some G ->
                                FindROMByCRCInGame G c = None).
    { intros Hl k G Hk HG.
      apply (FindROMByCRC_list_first c GameList 0 g j Hl k G); [lia|exact HG]. }
    unfold FindROMByCRC in H.
    destruct TryGame as [t|]; [|right; exact (Hlist H)].
    destruct (nth_error GameList t) as [T|]; [|right; exact (Hlist H)].
    destruct (FindROMByCRCInGame T c) as [j0|]; [|right; exact (Hlist H)].
    injection H as <- <-. left. reflexivity.
Qed.

(** A catalog in which the second title shares a checksum with the first. *)
Lemma FindROMByCRC_order_witness :
  FindROMByCRC [gameB; mkGame "gamec" "Game C" [romA0; romB0]] (Some 1%nat) 200
  = Some (1%nat, 1%nat).
Proof.
  apply (proj1 (FindROMByCRC_order
                  [gameB; mkGame "gamec" "Game C" [romA0; romB0]]
                  (Some 1%nat) 200)
               1%nat (mkGame "gamec" "Game C" [romA0; romB0]) 1%nat);
    reflexivity.
Defined.

(** ** Placement with any group size and stride *)

Section Groups.

Variables (R : ROMInfo) (buf : Buffer) (n : Z).
Hypothesis group_pos : 0 < groupSize R.
Hypothesis group_le_stride : groupSize R <= stride R.
Hypothesis groups_lo : (n - 1) * groupSize R < fileSize R.
Hypothesis groups_hi : fileSize R <= n * groupSize R.
Hypothesis n_lo : 0 <= n.
Hypothesis src_ok : n * groupSize R < wordsize.
Hypothesis off_lo : 0 <= offset R.
Hypothesis dst_ok : 0 < n -> offset R + (n - 1) * stride R + groupSize R
                             <= wordsize.

Lemma more_groups (q : Z) : 0 <= q -> (q * groupSize R < fileSize R <-> q < n).
Proof. intros Hq. split; intros H; nia. Qed.

Lemma place_loop_interleaved (fuel : nat) :
  forall (dst : Buffer) (destIdx q0 : Z),
    0 <= q0 <= n ->
    (q0 < n -> destIdx = offset R + q0 * stride R) ->
    n - q0 < Z.of_nat fuel ->
    exists d, place_loop fuel R dst buf destIdx (q0 * groupSize R) = Some d /\
              forall a, d a = interleaved R q0 n buf dst a.
Proof.
  induction fuel as [|fuel IH]; intros dst destIdx q0 Hq Hd Hfuel; [lia|].
  cbn [place_loop].
  destruct (q0 * groupSize R <? fileSize R) eqn:Elt.
  - apply Z.ltb_lt in Elt. apply more_groups in Elt; [|lia].
    specialize (Hd Elt). subst destIdx.
    destruct (place_group_spec buf (offset R + q0 * stride R)
                (Z.to_nat (groupSize R)) 0 dst (q0 * groupSize R))
      as [Hsnd Hfst]; rewrite ?Z2Nat.id by lia; try nia.
    destruct (place_group (Z.to_nat (groupSize R)) 0 dst buf
                (offset R + q0 * stride R) (q0 * groupSize R))
      as [dst' srcIdx'].
    cbn [fst snd] in Hsnd, Hfst. rewrite Z2Nat.id in Hsnd, Hfst by lia.
    subst srcIdx'.
    replace (q0 * groupSize R + groupSize R) with ((q0 + 1) * groupSize R)
      by lia.
    destruct (IH dst' (u32 (offset R + q0 * stride R + stride R)) (q0 + 1))
      as (d & Hrun & Hspec); try lia.
    + intros Hnext. rewrite u32_small by nia. lia.
    + exists d. split; [exact Hrun|].
      intros a. rewrite Hspec. unfold interleaved. cbn zeta. rewrite Hfst.
      pose proof (Z.div_mod (a - offset R) (stride R) ltac:(lia)) as Hdm.
      pose proof (Z.mod_pos_bound (a - offset R) (stride R) ltac:(lia)) as Hmb.
      set (q := (a - offset R) / stride R) in *.
      set (r := (a - offset R) mod stride R) in *.
      range_bool; try reflexivity; try nia.
      f_equal. nia.
  - apply Z.ltb_ge in Elt.
    assert (q0 = n).
    { destruct (Z.lt_ge_cases q0 n) as [H|H]; [|lia].
      apply more_groups in H; lia. }
    subst q0. exists dst. split; [reflexivity|].
    intros a. unfold interleaved. cbn zeta.
    range_bool; try reflexivity; lia.
Qed.

Lemma interleaved_at (dst : Buffer) (q r : Z) :
  0 <= q < n -> 0 <= r < groupSize R ->
  interleaved R 0 n buf dst (offset R + q * stride R + r)
  = buf (q * groupSize R + r).
Proof.
  intros Hq Hr. unfold interleaved. cbn zeta.
  replace (offset R + q * stride R + r - offset R) with (r + q * stride R)
    by lia.
  rewrite Z.div_add, Z.mod_add by lia.
  rewrite Z.div_small, Z.mod_small by lia. cbn [Z.add].
  range_bool; try reflexivity; lia.
Qed.

Lemma interleaved_off (dst : Buffer) (a : Z) :
  (forall q r, 0 <= q < n -> 0 <= r < groupSize R ->
               a <> offset R + q * stride R + r) ->
  interleaved R 0 n buf dst a = dst a.
Proof.
  intros Hout. unfold interleaved. cbn zeta.
  pose proof (Z.div_mod (a - offset R) (stride R) ltac:(lia)) as Hdm.
  pose proof (Z.mod_pos_bound (a - offset R) (stride R) ltac:(lia)) as Hmb.
  set (q := (a - offset R) / stride R) in *.
  set (r := (a - offset R) mod stride R) in *.
  range_bool; try reflexivity.
  exfalso. apply (Hout q r); lia.
Qed.

End Groups.

(** X8: placement in general.  For an image of [n] groups laid out
    without wrap-around, [place] returns; byte [r] of group [q] of the
    source lands at destination index [offset + q*stride + r], and every
    destination byte that is no such index keeps its value. *)
Theorem place_groups (R : ROMInfo) (n : Z) (dst buf : Buffer) (fuel : nat) :
  layout_ok R n -> n < Z.of_nat fuel ->
  exists d,
    place fuel R dst buf = Some d /\
    (forall q r, 0 <= q < n -> 0 <= r < groupSize R ->
                 d (offset R + q * stride R + r) = buf (q * groupSize R + r)) /\
    (forall a,
        (forall q r, 0 <= q < n -> 0 <= r < groupSize R ->
                     a <> offset R + q * stride R + r) ->
        d a = dst a).
Proof.
  intros (Hg & Hgs & Hlo & Hhi & Hn & Hsrc & Ho & Hdst) Hfuel.
  destruct (place_loop_interleaved R buf n Hg Hgs Hlo Hhi Hn Hsrc Ho Hdst
              fuel dst (offset R) 0) as (d & Hrun & Hspec); try lia.
  exists d. split; [exact Hrun|]. split.
  - intros q r Hq Hr. rewrite Hspec.
    apply (interleaved_at R buf n Hg Hgs dst q r Hq Hr).
  - intros a Ha. rewrite Hspec.
    apply (interleaved_off R buf n Hg Hgs dst a Ha).
Qed.

Lemma rom_words_layout : layout_ok rom_words 3.
Proof. unfold layout_ok. cbn. rewrite ?wordsize_val. lia. Defined.

Lemma place_groups_witness :
  exists d,
    place 4 rom_words zeros ones = Some d /\
    (forall q r, 0 <= q < 3 -> 0 <= r < 2 ->
                 d (8 + q * 4 + r) = ones (q * 2 + r)) /\
    (forall a,
        (forall q r, 0 <= q < 3 -> 0 <= r < 2 -> a <> 8 + q * 4 + r) ->
        d a = zeros a).
Proof.
  apply (place_groups rom_words 3 zeros ones 4 rom_words_layout). lia.
Defined.

(** X9: the last group is copied whole even when the file ends inside
    it: if [fileSize] is no multiple of [groupSize], the scratch byte at
    index [fileSize], the first one past the file, is placed too. *)
Theorem place_reads_past_file (R : ROMInfo) (n : Z) (dst buf : Buffer)
        (fuel : nat) :
  layout_ok R n -> 0 <= fileSize R < n * groupSize R -> n < Z.of_nat fuel ->
  exists d,
    place fuel R dst buf = Some d /\
    d (offset R + (n - 1) * stride R + (fileSize R - (n - 1) * groupSize R))
    = buf (fileSize R).
Proof.
  intros (Hg & Hgs & Hlo & Hhi & Hn & Hsrc & Ho & Hdst) Hragged Hfuel.
  assert (Hn1 : 0 <= n - 1 < n) by nia.
  destruct (place_loop_interleaved R buf n Hg Hgs Hlo Hhi Hn Hsrc Ho Hdst
              fuel dst (offset R) 0) as (d & Hrun & Hspec); try lia.
  exists d. split; [exact Hrun|].
  rewrite Hspec.
  rewrite (interleaved_at R buf n Hg Hgs dst (n - 1)
             (fileSize R - (n - 1) * groupSize R)) by lia.
  f_equal. lia.
Qed.

Lemma rom_ragged_layout : layout_ok rom_ragged 3.
Proof. unfold layout_ok. cbn. rewrite ?wordsize_val. lia. Defined.

Lemma place_reads_past_file_witness :
  exists d,
    place 4 rom_ragged zeros ones = Some d /\
    d (8 + (3 - 1) * 4 + (5 - (3 - 1) * 2)) = ones 5.
Proof.
  apply (place_reads_past_file rom_ragged 3 zeros ones 4 rom_ragged_layout);
    cbn; lia.
Defined.

Lemma place_loop_stuck (R : ROMInfo) (buf : Buffer) (srcIdx : Z) :
  groupSize R = 0 -> srcIdx < fileSize R ->
  forall (fuel : nat) (dst : Buffer) (destIdx : Z),
    place_loop fuel R dst buf destIdx srcIdx = None.
Proof.
  intros Hg Hlt. induction fuel as [|fuel IH]; intros dst destIdx;
    [reflexivity|].
  cbn [place_loop].
  replace (srcIdx <? fileSize R) with true by (symmetry; apply Z.ltb_lt; lia).
  rewrite Hg. cbn [Z.to_nat place_group]. apply IH.
Qed.

(** X10: with [groupSize = 0] and a file that is not empty the mapping
    loop never advances its source index: [place] returns for no amount
    of fuel, and it writes nothing on the way. *)
Theorem place_empty_group_diverges (R : ROMInfo) (dst buf : Buffer) :
  groupSize R = 0 -> 0 < fileSize R ->
  forall fuel, place fuel R dst buf = None.
Proof.
  intros Hg Hf fuel. unfold place.
  apply (place_loop_stuck R buf 0 Hg Hf).
Qed.

Lemma place_empty_group_diverges_witness :
  place 9 rom_empty_group zeros ones = None.
Proof.
  apply (place_empty_group_diverges rom_empty_group zeros ones);
    [reflexivity|cbn; lia].
Defined.

(** X11: two byte-interleaved images compose.  With [groupSize = 1] and
    [stride = 2], equal lengths [L] and offsets [o] and [o + 1], and the
    interleaved range free of 32-bit wrap-around ([o + 2*L <= 2^32]),
    placing one and then the other puts byte [i] of the first at
    [o + 2*i] and byte [i] of the second at [o + 2*i + 1], leaves
    everything outside [[o, o + 2*L)] alone, and the order of the two
    placements does not matter. *)
Theorem interleaved_pair (R1 R2 : ROMInfo) (dst buf1 buf2 : Buffer)
        (fuel : nat) :
  groupSize R1 = 1 -> stride R1 = 2 -> groupSize R2 = 1 -> stride R2 = 2 ->
  fileSize R2 = fileSize R1 -> offset R2 = offset R1 + 1 ->
  0 <= offset R1 -> 0 <= fileSize R1 ->
  offset R1 + 2 * fileSize R1 <= wordsize ->
  fileSize R1 < Z.of_nat fuel ->
  exists d1 d2 e1 e2,
    place fuel R1 dst buf1 = Some d1 /\ place fuel R2 d1 buf2 = Some d2 /\
    place fuel R2 dst buf2 = Some e1 /\ place fuel R1 e1 buf1 = Some e2 /\
    (forall i, 0 <= i < fileSize R1 ->
               d2 (offset R1 + 2 * i) = buf1 i /\
               d2 (offset R1 + 2 * i + 1) = buf2 i) /\
    (forall a, a < offset R1 \/ offset R1 + 2 * fileSize R1 <= a ->
               d2 a = dst a) /\
    (forall a, e2 a = d2 a).
Proof.
  intros Hg1 Hs1 Hg2 Hs2 Hlen Hoff Ho Hl Hw Hfuel.
  assert (Hlast1 : offset R1 + 2 * (fileSize R1 - 1) < wordsize) by lia.
  assert (Hlast2 : offset R2 + 2 * (fileSize R2 - 1) < wordsize) by lia.
  assert (Ho2 : 0 <= offset R2) by lia.
  destruct (place_loop_spread R1 buf1 Hg1 Hs1 Ho Hlast1 fuel dst (offset R1) 0)
    as (d1 & Hd1 & Sd1); try lia.
  destruct (place_loop_spread R2 buf2 Hg2 Hs2 Ho2 Hlast2 fuel d1 (offset R2) 0)
    as (d2 & Hd2 & Sd2); try lia.
  destruct (place_loop_spread R2 buf2 Hg2 Hs2 Ho2 Hlast2 fuel dst (offset R2) 0)
    as (e1 & He1 & Se1); try lia.
  destruct (place_loop_spread R1 buf1 Hg1 Hs1 Ho Hlast1 fuel e1 (offset R1) 0)
    as (e2 & He2 & Se2); try lia.
  assert (Hall : forall a,
             d2 a = spread R2 buf2 (spread R1 buf1 dst 0) 0 a /\
             e2 a = spread R1 buf1 (spread R2 buf2 dst 0) 0 a).
  { intros a. split.
    - rewrite Sd2. unfold spread at 1. unfold spread at 2.
      rewrite Sd1. reflexivity.
    - rewrite Se2. unfold spread at 1. unfold spread at 2.
      rewrite Se1. reflexivity. }
  exists d1, d2, e1, e2. unfold place.
  repeat (split; [assumption|]).
  split; [|split].
  - intros i Hi. rewrite !(proj1 (Hall _)). unfold spread.
    rewrite Hoff, Hlen. cbn zeta.
    replace (offset R1 + 2 * i - (offset R1 + 1)) with (1 + 2 * (i - 1))
      by lia.
    replace (offset R1 + 2 * i - offset R1) with (0 + 2 * i) by lia.
    replace (offset R1 + 2 * i + 1 - (offset R1 + 1)) with (0 + 2 * i) by lia.
    rewrite !Z.even_add_mul_2. cbn [Z.even Z.add].
    rewrite andb_false_r.
    replace (2 * i / 2) with i
      by (symmetry; rewrite Z.mul_comm; apply Z.div_mul; lia).
    split; range_bool; try reflexivity; lia.
  - intros a Ha. rewrite (proj1 (Hall a)). unfold spread.
    rewrite Hoff, Hlen. cbn zeta. range_bool; try reflexivity; try lia.
    replace (a - (offset R1 + 1)) with (1 + 2 * (fileSize R1 - 1)) by lia.
    rewrite Z.even_add_mul_2. reflexivity.
  - intros a. rewrite (proj1 (Hall a)), (proj2 (Hall a)). unfold spread.
    rewrite Hoff, Hlen. cbn zeta.
    destruct (even_cases (a - offset R1)) as [[E [m Hm]]|[E [m Hm]]].
    + replace (a - (offset R1 + 1)) with (1 + 2 * (m - 1)) by lia.
      rewrite E, Z.even_add_mul_2. cbn [Z.even].
      rewrite !andb_false_r. reflexivity.
    + replace (a - (offset R1 + 1)) with (0 + 2 * m) by lia.
      rewrite E, Z.even_add_mul_2. cbn [Z.even].
      rewrite !andb_false_r. reflexivity.
Qed.

Lemma interleaved_pair_witness :
  exists d1 d2 e1 e2,
    place 4 rom_even zeros ones = Some d1 /\
    place 4 rom_odd d1 marked_src = Some d2 /\
    place 4 rom_odd zeros marked_src = Some e1 /\
    place 4 rom_even e1 ones = Some e2 /\
    (forall i, 0 <= i < 3 ->
               d2 (4 + 2 * i) = ones i /\ d2 (4 + 2 * i + 1) = marked_src i) /\
    (forall a, a < 4 \/ 4 + 2 * 3 <= a -> d2 a = zeros a) /\
    (forall a, e2 a = d2 a).
Proof.
  apply (interleaved_pair rom_even rom_odd zeros ones marked_src 4);
    try reflexivity; cbn; rewrite ?wordsize_val; lia.
Defined.

(** ** LoadROM: failures, warnings and what is placed *)


Ltac LoadROM_cases H :=
  unfold LoadROM, ErrorLog in H;
  repeat match type of H with
    | context [if ?b then _ else _] =>
        let E := fresh "E" in destruct b eqn:E; cbn [negb snd] in H
    | context [match ?x with Some _ => _ | None => _ end] =>
        let E := fresh "E" in destruct x eqn:E; cbn [negb snd] in H
    end;
  try discriminate H.








(** ** The scratch buffer's size *)

Lemma max_size_acc (roms : list ROMInfo) :
  forall m,
    m <= max_size roms m /\
    (forall R, In R roms -> fileSize R <= max_size roms m) /\
    (max_size roms m = m \/
     exists R, In R roms /\ fileSize R = max_size roms m).
Proof.
  induction roms as [|r rest IH]; intros m; cbn [max_size].
  - split; [lia|]. split; [intros R []|left; reflexivity].
  - destruct (Z.gtb_spec (fileSize r) m) as [Hgt|Hle].
    + destruct (IH (fileSize r)) as (H1 & H2 & H3).
      split; [lia|]. split.
      * intros R [<-|HR]; [exact H1|exact (H2 R HR)].
      * right. destruct H3 as [H3|(R & HR & H3)].
        -- exists r. split; [left; reflexivity|congruence].
        -- exists R. split; [right; exact HR|exact H3].
    + destruct (IH m) as (H1 & H2 & H3).
      split; [exact H1|]. split.
      * intros R [<-|HR]; [lia|exact (H2 R HR)].
      * destruct H3 as [H3|(R & HR & H3)]; [left; exact H3|].
        right. exists R. split; [right; exact HR|exact H3].
Qed.

(** X15: the scratch buffer is as large as the largest image of the
    title and no larger: [maxSize] bounds every [fileSize] of the list,
    and it is either one of them or zero. *)
Theorem max_size_is_largest (roms : list ROMInfo) :
  (forall R, In R roms -> fileSize R <= max_size roms 0) /\
  (max_size roms 0 = 0 \/
   exists R, In R roms /\ fileSize R = max_size roms 0).
Proof.
  destruct (max_size_acc roms 0) as (_ & H2 & H3). split; assumption.
Qed.

(** ** What the scan marks *)

Lemma hits_in_game (GameList : list GameInfo) (g : GamePtr) (G : GameInfo)
      (idx : nat) (e : ZipEntry) :
  nth_error GameList g = Some G ->
  (hits GameList g idx e = true <->
   ze_info e = true /\ FindROMByCRCInGame G (u32 (ze_crc e)) = Some idx).
Proof.
  intros HG. unfold hits. split.
  - intros H. apply andb_prop in H. destruct H as [Hi H].
    split; [exact Hi|].
    destruct (FindROMByCRC GameList (Some g) (u32 (ze_crc e)))
      as [[g' j]|] eqn:Hf; [|discriminate].
    apply andb_prop in H. destruct H as [Hg Hj].
    apply Nat.eqb_eq in Hg. apply Nat.eqb_eq in Hj. subst g' j.
    apply FindROMByCRC_sound in Hf. destruct Hf as (G' & HG' & Hin).
    congruence.
  - intros [Hi Hin]. rewrite Hi, (FindROMByCRC_bias GameList g G _ idx HG Hin).
    rewrite !Nat.eqb_refl. reflexivity.
Qed.

(** X16: after the scan of an archive whose first matching entry belongs
    to title [G], the presence flag of image [idx] is set exactly when
    some readable entry of the archive carries a checksum whose first
    occurrence in [G]'s image list is at [idx]. *)
Theorem scan_marks (GameList : list GameInfo) (entries : list ZipEntry)
        (g : GamePtr) (c : Z) (G : GameInfo) (idx : nat) :
  first_match GameList entries = Some (g, c) ->
  nth_error GameList g = Some G ->
  (sFound (scan GameList entries (scan_init [])) idx = true <->
   exists e, In e entries /\ ze_info e = true /\
             FindROMByCRCInGame G (u32 (ze_crc e)) = Some idx).
Proof.
  intros Hm HG.
  pose proof (scan_from_start GameList entries (scan_init []) eq_refl) as H.
  cbn zeta in H. rewrite Hm in H. destruct H as (_ & Hf & _).
  rewrite Hf. cbn [scan_init sFound none_found orb]. unfold present.
  rewrite existsb_exists. split.
  - intros (e & He & Hh). exists e. split; [exact He|].
    apply (hits_in_game GameList g G idx e HG). exact Hh.
  - intros (e & He & Hi & Hin). exists e. split; [exact He|].
    apply (hits_in_game GameList g G idx e HG). split; assumption.
Qed.

Lemma scan_marks_witness :
  sFound (scan catalog (zf_entries zip_partial) (scan_init [])) 0 = true <->
  exists e, In e (zf_entries zip_partial) /\ ze_info e = true /\
            FindROMByCRCInGame gameA (u32 (ze_crc e)) = Some 0%nat.
Proof.
  apply (scan_marks catalog (zf_entries zip_partial) 0%nat 100 gameA 0%nat);
    reflexivity.
Defined.

(** ** What a returned title guarantees *)

(** A title is only returned after a scan that found all its images. *)
Lemma load_some_complete (fuel : nat) (Map : list ROMMap)
      (GameList : list GameInfo) (zf : ZipFile) (loadAll : bool)
      (alloc : option Buffer) (mem : Mem) (r : Result) (g : GamePtr) :
  LoadROMSetFromZIPFile fuel Map GameList zf loadAll alloc mem = Some r ->
  rGame r = Some g ->
  zf_open zf = true /\ zf_first zf = true /\
  exists c,
    first_match GameList (zf_entries zf) = Some (g, c) /\
    absent_from 0 (game_roms GameList g)
                (present GameList g (zf_entries zf)) = [].
Proof.
  intros Hr Hg.
  destruct (load_some_opened fuel Map GameList zf loadAll alloc mem r g Hr Hg)
    as [Ho Hf].
  split; [exact Ho|]. split; [exact Hf|].
  destruct (first_match GameList (zf_entries zf)) as [[g0 c]|] eqn:Hm.
  - destruct (load_result_facts fuel Map GameList zf loadAll alloc mem g0 c r
                                Ho Hf Hm Hr) as [_ [Hn|Hs]];
      [congruence|].
    assert (g0 = g) by congruence. subst g0.
    exists c. split; [reflexivity|].
    destruct (absent_from 0 (game_roms GameList g)
                (present GameList g (zf_entries zf))) as [|a l] eqn:Habs;
      [reflexivity|].
    rewrite (load_incomplete fuel Map GameList zf loadAll alloc mem g c
                             Ho Hf Hm) in Hr
      by (rewrite Habs; discriminate).
    injection Hr as <-. discriminate.
  - rewrite (load_unidentified fuel Map GameList zf loadAll alloc mem Ho Hf Hm)
      in Hr.
    injection Hr as <-. discriminate.
Qed.

(** X17: a title is never returned unless the checksums of its images
    are pairwise distinct: an image that repeats the checksum of an
    earlier one of the same title can never be marked present. *)
Theorem returned_title_has_distinct_checksums
        (fuel : nat) (Map : list ROMMap) (GameList : list GameInfo)
        (zf : ZipFile) (loadAll : bool) (alloc : option Buffer) (mem : Mem)
        (r : Result) (g : GamePtr) (G : GameInfo) :
  LoadROMSetFromZIPFile fuel Map GameList zf loadAll alloc mem = Some r ->
  rGame r = Some g -> nth_error GameList g = Some G ->
  NoDup (map crc (ROM G)).
Proof.
  intros Hr Hg HG.
  destruct (load_some_complete fuel Map GameList zf loadAll alloc mem r g
                               Hr Hg) as (_ & _ & c & Hm & Habs).
  assert (Hroms : game_roms GameList g = ROM G)
    by (unfold game_roms; rewrite HG; reflexivity).
  rewrite Hroms in Habs.
  assert (Hfirst : forall i k Ri Rk,
             (k < i)%nat -> nth_error (ROM G) i = Some Ri ->
             nth_error (ROM G) k = Some Rk -> crc Rk <> crc Ri).
  { intros i k Ri Rk Hk Hi Hk'.
    assert (Hlt : (i < List.length (ROM G))%nat)
      by (apply nth_error_Some; congruence).
    pose proof (absent_from_nil (ROM G) _ 0 Habs i Hlt) as Hp.
    cbn [Nat.add] in Hp. unfold present in Hp.
    apply existsb_exists in Hp. destruct Hp as (e & _ & Hh).
    apply (hits_in_game GameList g G i e HG) in Hh. destruct Hh as [_ Hin].
    destruct (FindROMByCRCInGame_sound G _ i Hin) as (R' & HR' & Hc).
    assert (R' = Ri) by congruence. subst R'. rewrite Hc.
    apply (FindROMByCRCInGame_from_first (ROM G) _ 0 i Hin k Rk);
      [lia|exact Hk']. }
  apply NoDup_nth_error. intros i j Hi Heq.
  rewrite length_map in Hi.
  rewrite !nth_error_map in Heq.
  destruct (nth_error (ROM G) i) as [Ri|] eqn:Ei;
    [|apply nth_error_None in Ei; lia].
  destruct (nth_error (ROM G) j) as [Rj|] eqn:Ej; [|discriminate].
  cbn [option_map] in Heq. injection Heq as Heq.
  destruct (Nat.lt_total i j) as [Hlt|[Heq'|Hgt]]; [|exact Heq'|].
  - exfalso. apply (Hfirst j i Rj Ri Hlt Ej Ei). exact Heq.
  - exfalso. apply (Hfirst i j Ri Rj Hgt Ei Ej). symmetry. exact Heq.
Qed.

Lemma returned_title_has_distinct_checksums_witness :
  exists r, run_complete = Some r /\ NoDup (map crc (ROM gameA)).
Proof.
  eexists. split; [reflexivity|].
  eapply (returned_title_has_distinct_checksums 5 bindings catalog
            zip_complete true (Some zeros) blank);
    reflexivity.
Defined.

Lemma LoadROM_okay_strict (fuel : nat) (buf : Buffer) (bufSize : Z)
      (Map : list ROMMap) (R : ROMInfo) (e : ZipEntry) (mem : Mem)
      (log : list Diag) (rr : RomResult) :
  LoadROM fuel buf bufSize Map R e true mem log = Some rr ->
  rr_ok rr = OKAY -> loads_ok Map R e.
Proof.
  intros H Hok. LoadROM_cases H; injection H as <-; cbn [rr_ok] in Hok;
    try discriminate Hok; unfold loads_ok;
    repeat match goal with
      | E : negb _ = false |- _ => apply negb_false_iff in E
      | E : (_ =? _) = true |- _ => apply Z.eqb_eq in E
      end;
    repeat split; try assumption; eexists; eassumption.
Qed.

Section Marks.

Variables (fuel : nat) (Map : list ROMMap) (GameList : list GameInfo)
          (g : GamePtr) (maxSize : Z).

(** In strict mode a flag set by the second loop comes from an entry
    that loaded without error. *)
Lemma load_entries_marked (idx : nat) (entries : list ZipEntry) :
  forall st st',
    load_entries fuel Map GameList g maxSize true entries st = Some st' ->
    lFound st' idx = true ->
    lFound st idx = true \/
    exists e R, In e entries /\ hits GameList g idx e = true /\
                nth_error (game_roms GameList g) idx = Some R /\
                loads_ok Map R e.
Proof.
  induction entries as [|e rest IH]; intros st st' H Hf;
    cbn [load_entries] in H.
  - injection H as <-. left. exact Hf.
  - destruct (load_step fuel Map GameList g maxSize true st e)
      as [st1|] eqn:Hs; [|discriminate].
    destruct (IH st1 st' H Hf) as [Hf1|(e' & R & He' & Hh & HR & Hok)].
    2:{ right. exists e', R. split; [right; exact He'|].
        split; [exact Hh|]. split; [exact HR|exact Hok]. }
    destruct (owned GameList g e) eqn:Eo.
    + destruct (owned_hits GameList g e Eo) as [j Hh].
      destruct (load_step_owned fuel Map GameList g maxSize true st e j Hh)
        as (R & HR & _ & Hs').
      rewrite Hs' in Hs.
      destruct (LoadROM fuel (lBuf st) maxSize Map R e true (lMem st)
                        (lLog st)) as [rr|] eqn:Hl; [|discriminate].
      injection Hs as <-. cbn [lFound] in Hf1.
      destruct (rr_ok rr) eqn:Hok; [|left; exact Hf1].
      unfold mark in Hf1. destruct (Nat.eqb_spec idx j) as [->|Hne];
        [|left; exact Hf1].
      right. exists e, R. split; [left; reflexivity|].
      split; [exact Hh|]. split; [exact HR|].
      exact (LoadROM_okay_strict fuel (lBuf st) maxSize Map R e (lMem st)
                                 (lLog st) rr Hl Hok).
    + rewrite (load_step_skips fuel Map GameList g maxSize true st e Eo) in Hs.
      injection Hs as <-. left. exact Hf1.
Qed.

End Marks.

(** X18: what strict mode guarantees.  When the load returns a title
    with [loadAll] set, every image of that title has an archive entry
    that resolves to it and was extracted without error, at the expected
    length, into a bound region. *)
Theorem strict_success_means_all_loaded
        (fuel : nat) (Map : list ROMMap) (GameList : list GameInfo)
        (zf : ZipFile) (alloc : option Buffer) (mem : Mem)
        (r : Result) (g : GamePtr) (idx : nat) (R : ROMInfo) :
  LoadROMSetFromZIPFile fuel Map GameList zf true alloc mem = Some r ->
  rGame r = Some g ->
  nth_error (game_roms GameList g) idx = Some R ->
  exists e, In e (zf_entries zf) /\ hits GameList g idx e = true /\
            loads_ok Map R e.
Proof.
  intros Hr Hg HR.
  destruct (load_some_complete fuel Map GameList zf true alloc mem r g Hr Hg)
    as (Ho & Hf & c & Hm & Habs).
  rewrite (load_complete fuel Map GameList zf true alloc mem g c Ho Hf Hm Habs)
    in Hr.
  cbn zeta in Hr.
  destruct alloc as [buf|]; [|injection Hr as <-; discriminate].
  destruct (zf_again zf); cbn [negb] in Hr;
    [|injection Hr as <-; discriminate].
  destruct (load_entries fuel Map GameList g
              (max_size (game_roms GameList g) 0) true (zf_entries zf)
              (mkLoad none_found buf mem
                 (sLog (scan GameList (zf_entries zf) (scan_init [])))))
    as [ld|] eqn:Hld; [|discriminate].
  assert (Hidx : (idx < List.length (game_roms GameList g))%nat)
    by (apply nth_error_Some; congruence).
  destruct (lFound ld idx) eqn:Hfound.
  - destruct (load_entries_marked fuel Map GameList g _ idx (zf_entries zf)
                _ ld Hld Hfound) as [Hinit|(e & R' & He & Hh & HR' & Hok)];
      [discriminate Hinit|].
    assert (R' = R) by congruence. subst R'.
    exists e. split; [exact He|]. split; [exact Hh|exact Hok].
  - exfalso.
    pose proof (count_loaded_short (game_roms GameList g) (lFound ld)
                  0 0 idx (lLog ld) Hidx Hfound) as Hshort.
    destruct (count_loaded 0 (game_roms GameList g) (lFound ld) 0 (lLog ld))
      as [n log2].
    cbn [fst] in Hshort.
    replace (Nat.ltb n (List.length (game_roms GameList g))) with true in Hr
      by (symmetry; apply Nat.ltb_lt; lia).
    injection Hr as <-. discriminate.
Qed.

Lemma strict_success_means_all_loaded_witness :
  exists r, run_complete = Some r /\
    exists e, In e (zf_entries zip_complete) /\
              hits catalog 0 1 e = true /\ loads_ok bindings romA1 e.
Proof.
  eexists. split; [reflexivity|].
  eapply (strict_success_means_all_loaded 5 bindings catalog zip_complete
            (Some zeros) blank);
    reflexivity.
Defined.

(** ** When the load succeeds *)

Lemma LoadROM_loads_ok (fuel : nat) (buf : Buffer) (bufSize : Z)
      (Map : list ROMMap) (R : ROMInfo) (e : ZipEntry) (loadAll : bool)
      (mem : Mem) (log : list Diag) :
  loads_ok Map R e -> placeable fuel R ->
  exists rr, LoadROM fuel buf bufSize Map R e loadAll mem log = Some rr /\
             rr_ok rr = OKAY.
Proof.
  intros (Hname & Hsize & Hopen & Hread & p & Hp) (Hg & Hf & Hw & Hfuel).
  unfold LoadROM. rewrite Hname, Hsize, Z.eqb_refl, Hopen, Hread, Z.eqb_refl.
  cbn [negb].
  assert (Hswap : exists b2,
             (if byteSwap R
              then ByteSwap fuel (blit buf (ze_data e) bufSize) (fileSize R)
              else Some (blit buf (ze_data e) bufSize)) = Some b2).
  { destruct (byteSwap R); [|eexists; reflexivity].
    apply ByteSwap_loop_returns; lia. }
  destruct Hswap as [b2 ->]. rewrite Hp.
  destruct (place_loop_returns R b2 fuel Hg Hw (mem p) (offset R) 0)
    as [d Hd]; try lia.
  unfold place. rewrite Hd. eexists. split; reflexivity.
Qed.

Lemma absent_from_all_found (roms : list ROMInfo) (found : nat -> bool) :
  forall i,
    (forall k, (k < List.length roms)%nat -> found (i + k)%nat = true) ->
    absent_from i roms found = [].
Proof.
  induction roms as [|r rest IH]; intros i H; [reflexivity|].
  cbn [absent_from].
  pose proof (H 0%nat ltac:(cbn; lia)) as H0. rewrite Nat.add_0_r in H0.
  rewrite H0. apply IH. intros k Hk.
  replace (S i + k)%nat with (i + S k)%nat by lia.
  apply H. cbn [List.length]. lia.
Qed.

Lemma count_loaded_all (roms : list ROMInfo) (found : nat -> bool) :
  forall (i n : nat) (log : list Diag),
    (forall k, (k < List.length roms)%nat -> found (i + k)%nat = true) ->
    fst (count_loaded i roms found n log) = (n + List.length roms)%nat.
Proof.
  induction roms as [|r rest IH]; intros i n log H;
    cbn [count_loaded List.length fst]; [lia|].
  pose proof (H 0%nat ltac:(cbn; lia)) as H0. rewrite Nat.add_0_r in H0.
  rewrite H0. rewrite IH; [lia|].
  intros k Hk. replace (S i + k)%nat with (i + S k)%nat by lia.
  apply H. cbn [List.length]. lia.
Qed.

Section Marking.

Variables (fuel : nat) (Map : list ROMMap) (GameList : list GameInfo)
          (g : GamePtr) (maxSize : Z) (loadAll : bool).
Hypothesis all_placeable :
  forall R, In R (game_roms GameList g) -> placeable fuel R.

(** The second loop keeps every flag it has set and sets the flag of
    every image that has an entry loading without error. *)
Lemma load_entries_marks (entries : list ZipEntry) :
  forall st,
  exists st',
    load_entries fuel Map GameList g maxSize loadAll entries st = Some st' /\
    (forall idx, lFound st idx = true -> lFound st' idx = true) /\
    (forall idx e R,
        In e entries -> hits GameList g idx e = true ->
        nth_error (game_roms GameList g) idx = Some R ->
        loads_ok Map R e -> lFound st' idx = true).
Proof.
  induction entries as [|e rest IH]; intros st.
  - exists st. split; [reflexivity|]. split; [trivial|].
    intros idx e R [].
  - cbn [load_entries]. destruct (owned GameList g e) eqn:Eo.
    + destruct (owned_hits GameList g e Eo) as [j Hh].
      destruct (load_step_owned fuel Map GameList g maxSize loadAll st e j Hh)
        as (Rj & HRj & _ & ->).
      destruct (LoadROM_returns fuel (lBuf st) maxSize Map Rj e loadAll
                  (lMem st) (lLog st)
                  (all_placeable Rj (nth_error_In _ _ HRj))) as [rr Hl].
      rewrite Hl.
      destruct (IH (mkLoad (match rr_ok rr with
                            | OKAY => mark (lFound st) j
                            | FAIL => lFound st
                            end) (rr_buf rr) (rr_mem rr) (rr_log rr)))
        as (st' & Hrun & Hkeep & Hmark).
      exists st'. split; [exact Hrun|]. cbn [lFound] in Hkeep. split.
      * intros idx Hf. apply Hkeep. destruct (rr_ok rr); [|exact Hf].
        unfold mark. destruct (Nat.eqb idx j); [reflexivity|exact Hf].
      * intros idx e' R [<-|He'] Hh' HR Hok.
        -- assert (idx = j) by exact (hits_unique GameList g e idx j Hh' Hh).
           subst idx. assert (Rj = R) by congruence. subst Rj.
           destruct (LoadROM_loads_ok fuel (lBuf st) maxSize Map R e loadAll
                       (lMem st) (lLog st) Hok
                       (all_placeable R (nth_error_In _ _ HR)))
             as (rr' & Hl' & Hokay).
           assert (rr' = rr) by congruence. subst rr'.
           apply Hkeep. rewrite Hokay. unfold mark.
           rewrite Nat.eqb_refl. reflexivity.
        -- exact (Hmark idx e' R He' Hh' HR Hok).
    + rewrite (load_step_skips fuel Map GameList g maxSize loadAll st e Eo).
      destruct (IH st) as (st' & Hrun & Hkeep & Hmark).
      exists st'. split; [exact Hrun|]. split; [exact Hkeep|].
      intros idx e' R [<-|He'] Hh' HR Hok.
      * apply hits_owned in Hh'. congruence.
      * exact (Hmark idx e' R He' Hh' HR Hok).
Qed.

End Marking.

(** X19: an archive that is complete loads.  If the archive opens and
    lists twice, the scratch buffer is allocated, every image of the
    title of the first matching entry has an entry that resolves to it
    and extracts without error at the expected length into a bound
    region, and the images are placeable, then the load returns that
    title, in strict mode and without. *)
Theorem complete_archive_loads
        (fuel : nat) (Map : list ROMMap) (GameList : list GameInfo)
        (zf : ZipFile) (loadAll : bool) (buf : Buffer) (mem : Mem)
        (g : GamePtr) (c : Z) :
  zf_open zf = true -> zf_first zf = true -> zf_again zf = true ->
  first_match GameList (zf_entries zf) = Some (g, c) ->
  (forall idx R, nth_error (game_roms GameList g) idx = Some R ->
                 exists e, In e (zf_entries zf) /\
                           hits GameList g idx e = true /\
                           loads_ok Map R e) ->
  (forall R, In R (game_roms GameList g) -> placeable fuel R) ->
  exists r,
    LoadROMSetFromZIPFile fuel Map GameList zf loadAll (Some buf) mem
    = Some r /\ rGame r = Some g.
Proof.
  intros Ho Hf Ha Hm Hall Hwf.
  assert (Habs : absent_from 0 (game_roms GameList g)
                   (present GameList g (zf_entries zf)) = []).
  { apply absent_from_all_found. intros k Hk. cbn [Nat.add].
    destruct (nth_error (game_roms GameList g) k) as [R|] eqn:HR;
      [|apply nth_error_None in HR; lia].
    destruct (Hall k R HR) as (e & He & Hh & _).
    unfold present. apply existsb_exists. exists e. split; assumption. }
  rewrite (load_complete fuel Map GameList zf loadAll (Some buf) mem g c
                         Ho Hf Hm Habs).
  cbn zeta. rewrite Ha. cbn [negb].
  destruct (load_entries_marks fuel Map GameList g
              (max_size (game_roms GameList g) 0) loadAll Hwf (zf_entries zf)
              (mkLoad none_found buf mem
                 (sLog (scan GameList (zf_entries zf) (scan_init [])))))
    as (ld & -> & _ & Hmark).
  destruct loadAll; [|eexists; split; reflexivity].
  assert (Hn : fst (count_loaded 0 (game_roms GameList g) (lFound ld) 0
                                 (lLog ld))
               = (0 + List.length (game_roms GameList g))%nat).
  { apply count_loaded_all. intros k Hk. cbn [Nat.add].
    destruct (nth_error (game_roms GameList g) k) as [R|] eqn:HR;
      [|apply nth_error_None in HR; lia].
    destruct (Hall k R HR) as (e & He & Hh & Hok).
    exact (Hmark k e R He Hh HR Hok). }
  destruct (count_loaded 0 (game_roms GameList g) (lFound ld) 0 (lLog ld))
    as [n log2].
  cbn [fst Nat.add] in Hn. subst n. rewrite Nat.ltb_irrefl.
  eexists. split; reflexivity.
Qed.

Lemma zip_complete_all_ok (idx : nat) (R : ROMInfo) :
  nth_error (game_roms catalog 0) idx = Some R ->
  exists e, In e (zf_entries zip_complete) /\
            hits catalog 0 idx e = true /\ loads_ok bindings R e.
Proof.
  destruct idx as [|[|idx]]; cbn; intros H.
  - injection H as <-. exists fileA0. split; [left; reflexivity|].
    split; [reflexivity|]. unfold loads_ok. cbn.
    repeat split; try reflexivity. exists 0%nat. reflexivity.
  - injection H as <-. exists fileA1. split; [right; left; reflexivity|].
    split; [reflexivity|]. unfold loads_ok. cbn.
    repeat split; try reflexivity. exists 0%nat. reflexivity.
  - destruct idx; discriminate H.
Defined.

Lemma complete_archive_loads_witness :
  exists r,
    LoadROMSetFromZIPFile 5 bindings catalog zip_complete true (Some zeros)
                          blank = Some r /\ rGame r = Some 0%nat.
Proof.
  apply (complete_archive_loads 5 bindings catalog zip_complete true zeros
           blank 0%nat 100 eq_refl eq_refl eq_refl eq_refl
           zip_complete_all_ok catalog_placeable).
Defined.

(** X20: without strict mode nothing that happens during extraction can
    fail the load.  Once the scan has found every image of the identified
    title, the scratch buffer is allocated and the archive lists again,
    any result is the identified title, whatever entries fail to extract
    or lack a bound region; and with placeable images there is a result. *)
Theorem lenient_load_returns_title
        (fuel : nat) (Map : list ROMMap) (GameList : list GameInfo)
        (zf : ZipFile) (buf : Buffer) (mem : Mem) (g : GamePtr) (c : Z) :
  zf_open zf = true -> zf_first zf = true -> zf_again zf = true ->
  first_match GameList (zf_entries zf) = Some (g, c) ->
  absent_from 0 (game_roms GameList g)
              (present GameList g (zf_entries zf)) = [] ->
  let run :=
    LoadROMSetFromZIPFile fuel Map GameList zf false (Some buf) mem in
  (forall r, run = Some r -> rGame r = Some g) /\
  ((forall R, In R (game_roms GameList g) -> placeable fuel R) ->
   exists r, run = Some r /\ rGame r = Some g).
Proof.
  intros Ho Hf Ha Hm Habs run.
  assert (Hany : forall r, run = Some r -> rGame r = Some g).
  { intros r Hr. subst run.
    rewrite (load_complete fuel Map GameList zf false (Some buf) mem g c
                           Ho Hf Hm Habs) in Hr.
    cbn zeta in Hr. rewrite Ha in Hr. cbn [negb] in Hr.
    destruct (load_entries fuel Map GameList g
                (max_size (game_roms GameList g) 0) false (zf_entries zf)
                (mkLoad none_found buf mem
                   (sLog (scan GameList (zf_entries zf) (scan_init [])))))
      as [ld|]; [|discriminate].
    injection Hr as <-. reflexivity. }
  split; [exact Hany|].
  intros Hwf.
  destruct (load_returns fuel Map GameList zf false (Some buf) mem g c Hm Hwf)
    as [r Hr].
  exists r. split; [exact Hr|]. exact (Hany r Hr).
Qed.

Lemma lenient_load_returns_title_witness :
  exists r,
    LoadROMSetFromZIPFile 5 bindings catalog zip_short false (Some zeros)
                          blank = Some r /\ rGame r = Some 0%nat.
Proof.
  apply (proj2 (lenient_load_returns_title 5 bindings catalog zip_short zeros
                  blank 0%nat 100 eq_refl eq_refl eq_refl eq_refl eq_refl)).
  exact catalog_placeable.
Defined.

(** ** Entries nobody owns *)

Lemma scan_step_unknown (GameList : list GameInfo) (st : ScanState)
      (e : ZipEntry) :
  known GameList e = false -> scan_step GameList st e = st.
Proof.
  unfold known, scan_step. destruct (ze_info e); cbn [andb negb];
    [|reflexivity].
  destruct (FindROMByCRC GameList None (u32 (ze_crc e))) eqn:Hf;
    [discriminate|].
  intros _. rewrite (FindROMByCRC_unbiased_none GameList (sGame st) _ Hf).
  reflexivity.
Qed.

Lemma scan_known (GameList : list GameInfo) (entries : list ZipEntry) :
  forall st, scan GameList (filter (known GameList) entries) st
             = scan GameList entries st.
Proof.
  induction entries as [|e rest IH]; intros st; [reflexivity|].
  cbn [filter scan]. destruct (known GameList e) eqn:Ek.
  - cbn [scan]. apply IH.
  - rewrite (scan_step_unknown GameList st e Ek). apply IH.
Qed.

Lemma load_entries_known (fuel : nat) (Map : list ROMMap)
      (GameList : list GameInfo) (g : GamePtr) (maxSize : Z) (loadAll : bool)
      (entries : list ZipEntry) :
  forall st,
    load_entries fuel Map GameList g maxSize loadAll
                 (filter (known GameList) entries) st
    = load_entries fuel Map GameList g maxSize loadAll entries st.
Proof.
  induction entries as [|e rest IH]; intros st; [reflexivity|].
  cbn [filter load_entries]. destruct (known GameList e) eqn:Ek.
  - cbn [load_entries].
    destruct (load_step fuel Map GameList g maxSize loadAll st e);
      [apply IH|reflexivity].
  - assert (Eo : owned GameList g e = false).
    { unfold known in Ek. unfold owned.
      destruct (ze_info e); cbn [andb] in *; [|reflexivity].
      destruct (FindROMByCRC GameList None (u32 (ze_crc e))) eqn:Hf;
        [discriminate|].
      rewrite (FindROMByCRC_unbiased_none GameList (Some g) _ Hf).
      reflexivity. }
    rewrite (load_step_skips fuel Map GameList g maxSize loadAll st e Eo).
    apply IH.
Qed.

(** X21: entries whose metadata cannot be read, or whose checksum no
    catalog title owns, take no part in the load: with them or without
    them the pointer returned, the region memory and the whole log are
    the same. *)
Theorem unknown_entries_ignored
        (fuel : nat) (Map : list ROMMap) (GameList : list GameInfo)
        (zf : ZipFile) (loadAll : bool) (alloc : option Buffer) (mem : Mem) :
  LoadROMSetFromZIPFile fuel Map GameList (drop_unknown GameList zf) loadAll
                        alloc mem
  = LoadROMSetFromZIPFile fuel Map GameList zf loadAll alloc mem.
Proof.
  unfold LoadROMSetFromZIPFile, drop_unknown.
  cbn [zf_open zf_first zf_again zf_entries].
  destruct (zf_open zf); cbn [negb]; [|reflexivity].
  destruct (zf_first zf); cbn [negb]; [|reflexivity].
  rewrite scan_known.
  destruct (sGame (scan GameList (zf_entries zf) (scan_init [])))
    as [g|]; [|reflexivity].
  destruct (report_missing 0 (game_roms GameList g)
              (sFound (scan GameList (zf_entries zf) (scan_init []))) OKAY
              (sLog (scan GameList (zf_entries zf) (scan_init []))))
    as [err log1].
  destruct err; [|reflexivity].
  destruct alloc as [buf|]; [|reflexivity].
  destruct (zf_again zf); cbn [negb]; [|reflexivity].
  rewrite load_entries_known. reflexivity.
Qed.

Lemma FindROMByCRC_fails_iff_witness :
  FindROMByCRC catalog (Some 1%nat) 999 = None.
Proof.
  apply (proj2 (FindROMByCRC_fails_iff catalog (Some 1%nat) 999)).
  intros G [<-|[<-|[]]]; reflexivity.
Defined.

Lemma max_size_is_largest_witness :
  fileSize romB0 <= max_size [romA0; romB0] 0.
Proof.
  apply (proj1 (max_size_is_largest [romA0; romB0]) romB0).
  right. left. reflexivity.
Defined.

Lemma unknown_entries_ignored_witness :
  LoadROMSetFromZIPFile 5 bindings catalog (drop_unknown catalog zip_noisy)
                        true (Some zeros) blank
  = LoadROMSetFromZIPFile 5 bindings catalog zip_noisy true (Some zeros) blank.
Proof.
  apply (unknown_entries_ignored 5 bindings catalog zip_noisy true
                                 (Some zeros) blank).
Defined.

(** * Wrong lengths and mixed archives *)

(** ** Extraction, entry by entry *)





(** ** C1: a wrong uncompressed length *)

(** With an empty group in another image of the title the extraction
    never gets as far as the wrong-length entry. *)
Lemma load_stuck_on_empty_group (fuel : nat) :
  LoadROMSetFromZIPFile fuel bindings catalog_stuck zip_stuck true
                        (Some zeros) blank = None.
Proof.
  rewrite (load_complete fuel bindings catalog_stuck zip_stuck true
                         (Some zeros) blank 0%nat 300
                         eq_refl eq_refl eq_refl eq_refl).
  cbn zeta. cbn [zf_again zip_stuck negb zf_entries load_entries].
  destruct (load_step_owned fuel bindings catalog_stuck 0%nat
              (max_size (game_roms catalog_stuck 0) 0) true
              (mkLoad none_found zeros blank
                 (sLog (scan catalog_stuck (zf_entries zip_stuck)
                             (scan_init []))))
              fileS0 0%nat eq_refl) as (R & HR & _ & Hs).
  cbn in HR. injection HR as <-.
  cbn [zf_entries zip_stuck] in Hs. rewrite Hs.
  replace (LoadROM fuel _ _ bindings romS0 fileS0 true _ _) with
    (@None RomResult); [reflexivity|].
  symmetry. unfold LoadROM. cbn [fileS0 ze_name ze_size ze_open ze_read ze_data
                                 romS0 fileSize byteSwap region negb].
  cbn [Z.eqb Pos.eqb negb].
  change (u32 4) with 4. cbn [Z.eqb Pos.eqb negb].
  cbn [find_region bindings mregion ptr String.eqb].
  cbn. unfold place.
  rewrite place_loop_stuck; [reflexivity|reflexivity|cbn; lia].
Qed.

(** C1 as stated fails three times over.  Without strict mode a
    wrong-length entry of the identified title only skips that image and
    the title is still returned; in strict mode a second entry of the
    same image with the right length rescues the load; and where another
    image of the title has an empty group the load does not return at
    all, null or otherwise. *)
Lemma size_mismatch_not_always_fatal :
  first_match catalog (zf_entries zip_short) = Some (0%nat, 100) /\
  In fileA1_short (zf_entries zip_short) /\
  hits catalog 0 1 fileA1_short = true /\
  nth_error (game_roms catalog 0) 1 = Some romA1 /\
  ze_size fileA1_short <> fileSize romA1 /\
  option_map rGame
    (LoadROMSetFromZIPFile 5 bindings catalog zip_short false (Some zeros)
                           blank) = Some (Some 0%nat) /\
  In fileA1_short (zf_entries zip_retry) /\
  option_map rGame
    (LoadROMSetFromZIPFile 5 bindings catalog zip_retry true (Some zeros)
                           blank) = Some (Some 0%nat) /\
  first_match catalog_stuck (zf_entries zip_stuck) = Some (0%nat, 300) /\
  In fileS1_short (zf_entries zip_stuck) /\
  hits catalog_stuck 0 1 fileS1_short = true /\
  nth_error (game_roms catalog_stuck 0) 1 = Some romS1 /\
  ze_size fileS1_short <> fileSize romS1 /\
  ~ (exists (fuel : nat) (r : Result),
        LoadROMSetFromZIPFile fuel bindings catalog_stuck zip_stuck true
                              (Some zeros) blank = Some r).
Proof.
  repeat (split;
          [first [reflexivity | cbn; discriminate | cbn; tauto]|]).
  intros (fuel & r & H). rewrite load_stuck_on_empty_group in H.
  discriminate H.
Qed.

(** C1, amended: in strict mode ([loadAll]), if for some image [idx] of
    the identified title every archive entry that resolves to that image
    has an uncompressed length different from the catalog's, the load
    never returns the title.  Whatever it returns is null; and it does
    return, with null, when every image of the title is placeable
    (non-empty group, [fileSize + groupSize] below [2^32], fuel above
    [fileSize]), so that the byte-swap and mapping loops of the other
    images terminate. *)
Theorem size_mismatch_fails_strict_load
        (fuel : nat) (Map : list ROMMap) (GameList : list GameInfo)
        (zf : ZipFile) (alloc : option Buffer) (mem : Mem)
        (g : GamePtr) (c : Z) (idx : nat) (R : ROMInfo) :
  first_match GameList (zf_entries zf) = Some (g, c) ->
  nth_error (game_roms GameList g) idx = Some R ->
  (forall e, In e (zf_entries zf) -> hits GameList g idx e = true ->
             ze_size e <> fileSize R) ->
  let run := LoadROMSetFromZIPFile fuel Map GameList zf true alloc mem in
  (forall r, run = Some r -> rGame r = None) /\
  ((forall R', In R' (game_roms GameList g) -> placeable fuel R') ->
   exists r, run = Some r /\ rGame r = None).
Proof.
  intros Hm HR Hall run.
  assert (Hnull : forall r, run = Some r -> rGame r = None).
  { intros r Hr. subst run.
    destruct (rGame r) as [g'|] eqn:Hg; [|reflexivity]. exfalso.
    destruct (load_some_opened fuel Map GameList zf true alloc mem r g' Hr Hg)
      as [Ho Hf].
    destruct (absent_from 0 (game_roms GameList g)
                (present GameList g (zf_entries zf))) as [|a l] eqn:Habs.
    - rewrite (load_complete fuel Map GameList zf true alloc mem g c
                             Ho Hf Hm Habs) in Hr.
      cbn zeta in Hr.
      destruct alloc as [buf|]; [|injection Hr as <-; discriminate].
      destruct (zf_again zf); cbn [negb] in Hr;
        [|injection Hr as <-; discriminate].
      destruct (load_entries fuel Map GameList g
                  (max_size (game_roms GameList g) 0) true (zf_entries zf)
                  (mkLoad none_found buf mem
                     (sLog (scan GameList (zf_entries zf) (scan_init [])))))
        as [ld|] eqn:Hld; [|discriminate].
      apply (load_entries_never_placed fuel Map GameList g _ true idx R
               (zf_entries zf) HR Hall) in Hld; [|reflexivity].
      assert (Hidx : (idx < List.length (game_roms GameList g))%nat)
        by (apply nth_error_Some; congruence).
      pose proof (count_loaded_short (game_roms GameList g) (lFound ld)
                    0 0 idx (lLog ld) Hidx Hld) as Hshort.
      destruct (count_loaded 0 (game_roms GameList g) (lFound ld) 0 (lLog ld))
        as [n log2].
      cbn [fst] in Hshort.
      replace (Nat.ltb n (List.length (game_roms GameList g))) with true in Hr
        by (symmetry; apply Nat.ltb_lt; lia).
      injection Hr as <-. discriminate.
    - rewrite (load_incomplete fuel Map GameList zf true alloc mem g c
                               Ho Hf Hm) in Hr
        by (rewrite Habs; discriminate).
      injection Hr as <-. discriminate. }
  split; [exact Hnull|].
  intros Hwf.
  destruct (load_returns fuel Map GameList zf true alloc mem g c Hm Hwf)
    as [r Hr].
  exists r. split; [exact Hr|]. apply Hnull. exact Hr.
Qed.

Lemma zip_short_mismatch (e : ZipEntry) :
  In e (zf_entries zip_short) -> hits catalog 0 1 e = true ->
  ze_size e <> fileSize romA1.
Proof.
  intros [<-|[<-|[]]] Hh; cbn in *; [discriminate Hh|discriminate].
Defined.

Lemma size_mismatch_fails_strict_load_witness :
  exists r,
    LoadROMSetFromZIPFile 5 bindings catalog zip_short true (Some zeros) blank
    = Some r /\ rGame r = None.
Proof.
  apply (proj2 (size_mismatch_fails_strict_load 5 bindings catalog zip_short
                  (Some zeros) blank 0%nat 100 1%nat romA1
                  eq_refl eq_refl zip_short_mismatch)).
  exact catalog_placeable.
Defined.

(** ** C4: archives with images of more than one title *)




